(** * The scheduled-task store of Synapse

    A shallow embedding of [synapse/storage/databases/main/task_scheduler.py]
    (class [TaskSchedulerWorkerStore]) and statements about its five
    operations: list with filters, get by id, upsert, partial update and
    delete.

    The table [scheduled_tasks] is a finite map from the primary key [id]
    to the other seven columns.  The dictionaries the source passes to the
    database pool ([keyvalues], [values], [updatevalues]) are finite maps
    from column names to SQL values.  Exceptions are results of an error
    monad. *)

From stdpp Require Import gmap strings list fin_maps.
From Stdlib Require Import ZArith DecimalString DecimalZ DecimalPos Ascii.

Local Open Scope string_scope.
Local Open Scope Z_scope.
Local Open Scope list_scope.

(** ** Exceptions *)

(** The exceptions that reach the caller: [ValueError] from the enum
    constructor [TaskStatus(...)], [JSONDecodeError] from [json.loads], and
    [StorageError] for a statement the database engine rejects. *)
Inductive exn := ValueError | JSONDecodeError | StorageError.

Inductive res (A : Type) : Type :=
| Ok (a : A)
| Raise (e : exn).
Arguments Ok {A} a.
Arguments Raise {A} e.

#[global] Instance exn_eq_dec : EqDecision exn.
Proof. solve_decision. Defined.

#[global] Instance res_ret : MRet res := λ A, Ok.
#[global] Instance res_bind : MBind res := λ A B f m,
  match m with Ok a => f a | Raise e => Raise e end.
#[global] Instance res_fmap : FMap res := λ A B f m,
  match m with Ok a => Ok (f a) | Raise e => Raise e end.

Definition raises {A} (m : res A) : bool :=
  match m with Ok _ => false | Raise _ => true end.

(** ** JSON values *)

(** The structured values [json.loads] produces and [json.dumps] accepts.
    [JNull] is Python's [None]: a field annotated [Optional[JsonMapping]]
    holds a [json], and [x is None] is the test [is_None x].  A dict is the
    list of its items in insertion order. Floating-point numbers are left
    out. *)
#[warnings="-register-all"]
Inductive json :=
| JNull
| JBool (b : bool)
| JInt (z : Z)
| JStr (s : string)
| JArr (items : list json)
| JObj (members : list (string * json)).

Definition is_None (v : json) : bool :=
  match v with JNull => true | _ => false end.

(** The keys of every dict are pairwise distinct, at every depth: the
    invariant of Python dicts that the association lists do not enforce. *)
Fixpoint keys_unique (v : json) : Prop :=
  match v with
  | JArr items =>
      (fix all (l : list json) : Prop :=
         match l with [] => True | x :: l => keys_unique x ∧ all l end) items
  | JObj members =>
      NoDup (members.*1) ∧
      (fix all (l : list (string * json)) : Prop :=
         match l with [] => True | kv :: l => keys_unique kv.2 ∧ all l end) members
  | _ => True
  end.

(** Settles [keys_unique] of a value that is written out. *)
Ltac keys_unique_here :=
  vm_compute; repeat split; repeat constructor; set_solver.

(** ** The task record *)

(** Modelled from the spec: the enum [TaskStatus] of [synapse.types] (a
    [str] enum of four members, stored as its lower-case name). *)
Inductive TaskStatus := SCHEDULED | ACTIVE | COMPLETE | FAILED.

#[global] Instance TaskStatus_eq_dec : EqDecision TaskStatus.
Proof. solve_decision. Defined.

Definition TaskStatus_value (s : TaskStatus) : string :=
  match s with
  | SCHEDULED => "scheduled"
  | ACTIVE => "active"
  | COMPLETE => "complete"
  | FAILED => "failed"
  end.

(** Modelled from the spec: the constructor call [TaskStatus(text)], looking a
    member up by value and raising [ValueError] when there is none. *)
Definition TaskStatus_of (text : string) : res TaskStatus :=
  if decide (text = "scheduled") then Ok SCHEDULED
  else if decide (text = "active") then Ok ACTIVE
  else if decide (text = "complete") then Ok COMPLETE
  else if decide (text = "failed") then Ok FAILED
  else Raise ValueError.

(** Modelled from the spec: the class [ScheduledTask] of [synapse.types],
    with the attributes of the spec's data model. *)
Record ScheduledTask := {
  id : string;
  action : string;
  status : TaskStatus;
  timestamp : Z;
  resource_id : option string;
  params : json;
  result : json;
  error : option string;
}.

(** ** The database *)

Inductive sqlval := SNull | SText (s : string) | SInt (z : Z).

#[global] Instance sqlval_eq_dec : EqDecision sqlval.
Proof. solve_decision. Defined.

(** Modelled from the spec: the schema of [scheduled_tasks] without its
    primary key; the three columns the spec does not mark [NULL] hold a
    value, the other four may be NULL. *)
Record Columns := {
  col_action : string;
  col_status : string;
  col_timestamp : Z;
  col_resource_id : option string;
  col_params : option string;
  col_result : option string;
  col_error : option string;
}.

(** A row as handed to Python: the key and the other columns. *)
Definition Row : Type := string * Columns.

Definition nullable (o : option string) : sqlval :=
  match o with Some s => SText s | None => SNull end.

(** [cursor_to_dict]: the row as a dictionary from column names to values. *)
Definition row_dict (row : Row) : gmap string sqlval :=
  list_to_map
    [("id", SText row.1);
     ("action", SText (col_action row.2));
     ("status", SText (col_status row.2));
     ("timestamp", SInt (col_timestamp row.2));
     ("resource_id", nullable (col_resource_id row.2));
     ("params", nullable (col_params row.2));
     ("result", nullable (col_result row.2));
     ("error", nullable (col_error row.2))].

Definition column_names : gset string :=
  {[ "id"; "action"; "status"; "timestamp"; "resource_id"; "params";
     "result"; "error" ]}.

Definition text_of (v : sqlval) : res string :=
  match v with SText s => Ok s | _ => Raise StorageError end.

Definition int_of (v : sqlval) : res Z :=
  match v with SInt z => Ok z | _ => Raise StorageError end.

Definition opt_text_of (v : sqlval) : res (option string) :=
  match v with
  | SNull => Ok None
  | SText s => Ok (Some s)
  | SInt _ => Raise StorageError
  end.

(** The value a column holds after [SET]: the assigned one, converted to
    the column's type, or the old one when the column is not assigned. *)
Definition assigned {A} (conv : sqlval → res A) (new : option sqlval) (old : A)
  : res A :=
  match new with Some v => conv v | None => Ok old end.

(** [SET column = value] for every item of [values]; the engine rejects a
    column the table does not have and a value of the wrong type. *)
Definition set_columns (values : gmap string sqlval) (old : Columns)
  : res Columns :=
  if bool_decide (dom values ⊆ column_names) then
    a ← assigned text_of (values !! "action") (col_action old);
    s ← assigned text_of (values !! "status") (col_status old);
    t ← assigned int_of (values !! "timestamp") (col_timestamp old);
    r ← assigned opt_text_of (values !! "resource_id") (col_resource_id old);
    p ← assigned opt_text_of (values !! "params") (col_params old);
    u ← assigned opt_text_of (values !! "result") (col_result old);
    e ← assigned opt_text_of (values !! "error") (col_error old);
    Ok {| col_action := a; col_status := s; col_timestamp := t;
          col_resource_id := r; col_params := p; col_result := u;
          col_error := e |}
  else Raise StorageError.

(** The columns of a row inserted from [values]: a column without a value
    is NULL, which the three non-null columns refuse. *)
Definition new_columns (values : gmap string sqlval) : res Columns :=
  if bool_decide (dom values ⊆ column_names) then
    a ← text_of (default SNull (values !! "action"));
    s ← text_of (default SNull (values !! "status"));
    t ← int_of (default SNull (values !! "timestamp"));
    r ← opt_text_of (default SNull (values !! "resource_id"));
    p ← opt_text_of (default SNull (values !! "params"));
    u ← opt_text_of (default SNull (values !! "result"));
    e ← opt_text_of (default SNull (values !! "error"));
    Ok {| col_action := a; col_status := s; col_timestamp := t;
          col_resource_id := r; col_params := p; col_result := u;
          col_error := e |}
  else Raise StorageError.

(** Modelled from the spec: [DatabasePool.simple_upsert], the "insert or
    replace by key" primitive, called with [keyvalues = {"id": key}]; the
    key column belongs to [keyvalues], and [values] naming it are
    refused. *)
Definition simple_upsert (db : gmap string Columns) (key : string)
    (values : gmap string sqlval) : res (gmap string Columns) :=
  if bool_decide ("id" ∈ dom values) then Raise StorageError
  else cols ← new_columns values; Ok (<[key := cols]> db).

(** Modelled from the spec: [DatabasePool.simple_update], the "conditional
    field-set update by key" primitive returning the number of rows it
    affected, called with [keyvalues = {"id": key}].  Assigning the key
    column moves the row, unless another row has the new key. *)
Definition simple_update (db : gmap string Columns) (key : string)
    (updatevalues : gmap string sqlval) : res (gmap string Columns * nat) :=
  match db !! key with
  | None => Ok (db, 0%nat)
  | Some old =>
      key' ← assigned text_of (updatevalues !! "id") key;
      cols ← set_columns updatevalues old;
      if decide (key' = key) then Ok (<[key := cols]> db, 1%nat)
      else match db !! key' with
           | Some _ => Raise StorageError
           | None => Ok (<[key' := cols]> (delete key db), 1%nat)
           end
  end.

(** Modelled from the spec: [DatabasePool.simple_select_one] with
    [allow_none=True] and all eight columns in [retcols]. *)
Definition simple_select_one (db : gmap string Columns) (key : string)
  : option Row :=
  cols ← db !! key; Some (key, cols).

(** Modelled from the spec: [DatabasePool.simple_delete], the "delete by
    key" primitive, called with [keyvalues = {"id": key}]. *)
Definition simple_delete (db : gmap string Columns) (key : string)
  : gmap string Columns :=
  delete key db.

(** *** The WHERE clause of a SELECT *)

(** A clause with its placeholders: [column IN (?, ..., ?)] with [n]
    placeholders, or [column IS NULL]. *)
Inductive clause :=
| InList (column : string) (n : nat)
| IsNull (column : string).

(** [SELECT * FROM scheduled_tasks], alone or followed by [WHERE] and the
    clauses joined by [AND]. *)
Inductive sql :=
| SELECT_ALL
| SELECT_WHERE (clauses : list clause).

Definition clause_column (c : clause) : string :=
  match c with InList column _ => column | IsNull column => column end.

Definition placeholders (c : clause) : nat :=
  match c with InList _ n => n | IsNull _ => 0%nat end.

(** Modelled from the spec: [make_in_list_sql_clause], the helper building
    a "column value is one of ..." clause and, for the empty collection,
    "column IS NULL"; it returns the clause and the arguments to bind. *)
Definition make_in_list_sql_clause (column : string) (iterable : list sqlval)
  : clause * list sqlval :=
  match iterable with
  | [] => (IsNull column, [])
  | _ => (InList column (length iterable), iterable)
  end.

(** One clause on one row; a NULL column is in no list (SQL's comparison
    with NULL is not true). *)
Definition clause_holds (c : clause) (args : list sqlval)
    (row : gmap string sqlval) : bool :=
  match c with
  | InList column _ =>
      match row !! column with
      | Some v => bool_decide (v ≠ SNull ∧ v ∈ args)
      | None => false
      end
  | IsNull column => bool_decide (row !! column = Some SNull)
  end.

(** The conjunction of the clauses, each taking its own arguments from the
    front of the argument list. *)
Fixpoint where_holds (clauses : list clause) (args : list sqlval)
    (row : gmap string sqlval) : bool :=
  match clauses with
  | [] => true
  | c :: clauses =>
      clause_holds c (take (placeholders c) args) row
      && where_holds clauses (drop (placeholders c) args) row
  end.

(** The statement is accepted when [WHERE] is followed by at least one
    clause, the clauses name columns of the table, and there is one
    argument for each placeholder. *)
Definition statement_ok (q : sql) (args : list sqlval) : bool :=
  match q with
  | SELECT_ALL => bool_decide (args = [])
  | SELECT_WHERE clauses =>
      bool_decide (clauses ≠ [])
      && forallb (λ c, bool_decide (clause_column c ∈ column_names)) clauses
      && bool_decide (sum_list_with placeholders clauses = length args)
  end.

(** [txn.execute(sql, args)] followed by [cursor_to_dict(txn)]; the rows
    come in the order of the table, which the store does not choose. *)
Definition execute (db : gmap string Columns) (q : sql) (args : list sqlval)
  : res (list Row) :=
  if statement_ok q args then
    match q with
    | SELECT_ALL => Ok (map_to_list db)
    | SELECT_WHERE clauses =>
        Ok (filter (λ row, where_holds clauses args (row_dict row))
              (map_to_list db))
    end
  else Raise StorageError.

(** ** A text codec for JSON

    The encoder writes what [json.dumps] writes with its default arguments
    (the separators [", "] and [": "], every character outside printable
    ASCII escaped); the decoder reads JSON text with integer numbers and
    strings of code points below 256, skipping white space.  The store is
    stated over any codec; this one instantiates it. *)
Module JsonText.

Definition dquote : ascii := "034"%char.
Definition backslash : ascii := "092"%char.

Definition hex_digit (n : N) : ascii :=
  match n with
  | 0 => "0" | 1 => "1" | 2 => "2" | 3 => "3" | 4 => "4" | 5 => "5"
  | 6 => "6" | 7 => "7" | 8 => "8" | 9 => "9" | 10 => "a" | 11 => "b"
  | 12 => "c" | 13 => "d" | 14 => "e" | _ => "f"
  end%N%char.

Definition escape_char (c : ascii) : string :=
  if (c =? dquote)%char then String backslash (String dquote EmptyString)
  else if (c =? backslash)%char then String backslash (String backslash EmptyString)
  else if (c =? "010")%char then String backslash "n"
  else if (c =? "013")%char then String backslash "r"
  else if (c =? "009")%char then String backslash "t"
  else if (c =? "008")%char then String backslash "b"
  else if (c =? "012")%char then String backslash "f"
  else if (N_of_ascii c <? 32)%N || (126 <? N_of_ascii c)%N then
    String backslash
      ("u00" +:+ String (hex_digit (N_of_ascii c / 16))
                   (String (hex_digit (N_of_ascii c mod 16)) EmptyString))
  else String c EmptyString.

Fixpoint escape (s : string) : string :=
  match s with
  | EmptyString => EmptyString
  | String c s => escape_char c +:+ escape s
  end.

Definition print_string (s : string) : string :=
  String dquote (escape s +:+ String dquote EmptyString).

Fixpoint print (v : json) : string :=
  match v with
  | JNull => "null"
  | JBool true => "true"
  | JBool false => "false"
  | JInt z => NilEmpty.string_of_int (Z.to_int z)
  | JStr s => print_string s
  | JArr items => "[" +:+ String.concat ", " (map print items) +:+ "]"
  | JObj members =>
      "{" +:+ String.concat ", "
                (map (λ kv, print_string kv.1 +:+ ": " +:+ print kv.2) members)
          +:+ "}"
  end.

Definition is_ws (c : ascii) : bool :=
  (c =? " ")%char || (c =? "009")%char || (c =? "010")%char || (c =? "013")%char.

Fixpoint skip_ws (s : string) : string :=
  match s with
  | String c s' => if is_ws c then skip_ws s' else s
  | EmptyString => EmptyString
  end.

Fixpoint strip_prefix (p s : string) : option string :=
  match p, s with
  | EmptyString, _ => Some s
  | String a p, String b s => if (a =? b)%char then strip_prefix p s else None
  | _, _ => None
  end.

Definition digit_of (c : ascii) : option (Decimal.uint → Decimal.uint) :=
  if (c =? "0")%char then Some Decimal.D0
  else if (c =? "1")%char then Some Decimal.D1
  else if (c =? "2")%char then Some Decimal.D2
  else if (c =? "3")%char then Some Decimal.D3
  else if (c =? "4")%char then Some Decimal.D4
  else if (c =? "5")%char then Some Decimal.D5
  else if (c =? "6")%char then Some Decimal.D6
  else if (c =? "7")%char then Some Decimal.D7
  else if (c =? "8")%char then Some Decimal.D8
  else if (c =? "9")%char then Some Decimal.D9
  else None.

Fixpoint parse_uint (s : string) : Decimal.uint * string :=
  match s with
  | String c s' =>
      match digit_of c with
      | Some d => let '(ds, rest) := parse_uint s' in (d ds, rest)
      | None => (Decimal.Nil, s)
      end
  | EmptyString => (Decimal.Nil, EmptyString)
  end.

Definition parse_number (s : string) : option (json * string) :=
  let '(negative, s) :=
    match s with
    | String c s' => if (c =? "-")%char then (true, s') else (false, s)
    | EmptyString => (false, s)
    end in
  let '(d, rest) := parse_uint s in
  match d with
  | Decimal.Nil => None
  | _ =>
      if Decimal.uint_beq (Decimal.unorm d) d then
        Some (JInt (Z.of_int (if negative then Decimal.Neg d else Decimal.Pos d)),
              rest)
      else None
  end.

Definition hex_value (c : ascii) : option N :=
  let n := N_of_ascii c in
  if (48 <=? n)%N && (n <=? 57)%N then Some (n - 48)%N
  else if (97 <=? n)%N && (n <=? 102)%N then Some (n - 87)%N
  else if (65 <=? n)%N && (n <=? 70)%N then Some (n - 55)%N
  else None.

Definition unescape (c : ascii) : option ascii :=
  if (c =? dquote)%char then Some dquote
  else if (c =? backslash)%char then Some backslash
  else if (c =? "/")%char then Some "/"%char
  else if (c =? "n")%char then Some "010"%char
  else if (c =? "r")%char then Some "013"%char
  else if (c =? "t")%char then Some "009"%char
  else if (c =? "b")%char then Some "008"%char
  else if (c =? "f")%char then Some "012"%char
  else None.

Definition code_point (h1 h2 h3 h4 : ascii) : option ascii :=
  a ← hex_value h1; b ← hex_value h2; c ← hex_value h3; d ← hex_value h4;
  let n := (((a * 16 + b) * 16 + c) * 16 + d)%N in
  if (n <? 256)%N then Some (ascii_of_N n) else None.

Fixpoint parse_string (s : string) : option (string * string) :=
  match s with
  | EmptyString => None
  | String c s1 =>
      if (c =? dquote)%char then Some (EmptyString, s1)
      else if (c =? backslash)%char then
        match s1 with
        | String e s2 =>
            if (e =? "u")%char then
              match s2 with
              | String h1 (String h2 (String h3 (String h4 s3))) =>
                  c' ← code_point h1 h2 h3 h4;
                  '(t, rest) ← parse_string s3;
                  Some (String c' t, rest)
              | _ => None
              end
            else
              c' ← unescape e;
              '(t, rest) ← parse_string s2;
              Some (String c' t, rest)
        | EmptyString => None
        end
      else if (N_of_ascii c <? 32)%N then None
      else '(t, rest) ← parse_string s1; Some (String c t, rest)
  end.

Fixpoint dict_set (k : string) (v : json) (d : list (string * json))
  : list (string * json) :=
  match d with
  | [] => [(k, v)]
  | kv :: d => if decide (kv.1 = k) then (k, v) :: d else kv :: dict_set k v d
  end.

Definition dict_of_pairs (pairs : list (string * json)) : list (string * json) :=
  foldl (λ d kv, dict_set kv.1 kv.2 d) [] pairs.

Fixpoint parse_elements (pv : string → option (json * string)) (n : nat)
    (s : string) : option (list json * string) :=
  match n with
  | O => None
  | S n =>
      '(v, s1) ← pv s;
      match skip_ws s1 with
      | String c s2 =>
          if (c =? ",")%char then
            '(vs, rest) ← parse_elements pv n s2; Some (v :: vs, rest)
          else if (c =? "]")%char then Some ([v], s2)
          else None
      | EmptyString => None
      end
  end.

Fixpoint parse_members (pv : string → option (json * string)) (n : nat)
    (s : string) : option (list (string * json) * string) :=
  match n with
  | O => None
  | S n =>
      match skip_ws s with
      | String q s1 =>
          if (q =? dquote)%char then
            '(k, s2) ← parse_string s1;
            match skip_ws s2 with
            | String c s3 =>
                if (c =? ":")%char then
                  '(v, s4) ← pv s3;
                  match skip_ws s4 with
                  | String c' s5 =>
                      if (c' =? ",")%char then
                        '(kvs, rest) ← parse_members pv n s5;
                        Some ((k, v) :: kvs, rest)
                      else if (c' =? "}")%char then Some ([(k, v)], s5)
                      else None
                  | EmptyString => None
                  end
                else None
            | EmptyString => None
            end
          else None
      | EmptyString => None
      end
  end.

Fixpoint parse_value (fuel : nat) (s : string) : option (json * string) :=
  match fuel with
  | O => None
  | S fuel =>
      match skip_ws s with
      | EmptyString => None
      | String c s1 =>
          if (c =? "n")%char then
            rest ← strip_prefix "ull" s1; Some (JNull, rest)
          else if (c =? "t")%char then
            rest ← strip_prefix "rue" s1; Some (JBool true, rest)
          else if (c =? "f")%char then
            rest ← strip_prefix "alse" s1; Some (JBool false, rest)
          else if (c =? dquote)%char then
            '(t, rest) ← parse_string s1; Some (JStr t, rest)
          else if (c =? "[")%char then
            match strip_prefix "]" (skip_ws s1) with
            | Some rest => Some (JArr [], rest)
            | None =>
                '(vs, rest) ← parse_elements (parse_value fuel) fuel s1;
                Some (JArr vs, rest)
            end
          else if (c =? "{")%char then
            match strip_prefix "}" (skip_ws s1) with
            | Some rest => Some (JObj [], rest)
            | None =>
                '(kvs, rest) ← parse_members (parse_value fuel) fuel s1;
                Some (JObj (dict_of_pairs kvs), rest)
            end
          else parse_number (String c s1)
      end
  end.

Definition dumps (v : json) : string := print v.

Definition loads (text : string) : option json :=
  '(v, rest) ← parse_value (S (String.length text)) text;
  match skip_ws rest with EmptyString => Some v | _ => None end.

(** What the proof of the round trip speaks of: text that does not go on
    with a digit, the characters a value starts with, a dict item as
    printed, and the number of nodes of a value (the fuel it needs). *)
Definition no_digit (s : string) : Prop :=
  match s with
  | String c _ => digit_of c = None
  | EmptyString => True
  end.

Definition value_start (c : ascii) : bool :=
  (c =? "n")%char || (c =? "t")%char || (c =? "f")%char || (c =? dquote)%char
  || (c =? "[")%char || (c =? "{")%char || (c =? "-")%char
  || bool_decide (is_Some (digit_of c)).

Definition print_member (kv : string * json) : string :=
  print_string kv.1 +:+ ": " +:+ print kv.2.

Fixpoint json_size (v : json) : nat :=
  match v with
  | JArr items => S (sum_list (map json_size items))
  | JObj members => S (sum_list (map (λ kv, json_size kv.2) members))
  | _ => 1
  end.

End JsonText.

(** One call of [update_scheduled_task], with its keyword arguments. *)
Record update_call := {
  call_id : string;
  call_timestamp : option Z;
  call_status : option TaskStatus;
  call_result : json;
  call_error : option string;
}.


(** ** Example tasks and tables *)

(** The task of the spec's example. *)
Definition purge_task : ScheduledTask :=
  {| id := "t1";
     action := "purge_history";
     status := SCHEDULED;
     timestamp := 1000;
     resource_id := Some "room1";
     params := JObj [("before", JInt 500)];
     result := JNull;
     error := None |}.

(** Its row, as upsert writes it. *)
Definition purge_row : Columns :=
  {| col_action := "purge_history";
     col_status := "scheduled";
     col_timestamp := 1000;
     col_resource_id := Some "room1";
     col_params := Some (JsonText.dumps (JObj [("before", JInt 500)]));
     col_result := None;
     col_error := None |}.

(** A row of a task that ended, with a result and an error. *)
Definition ended_row : Columns :=
  {| col_action := "purge_history";
     col_status := "failed";
     col_timestamp := 1010;
     col_resource_id := Some "room1";
     col_params := Some (JsonText.dumps (JObj [("before", JInt 500)]));
     col_result := Some (JsonText.dumps (JObj [("rows_deleted", JInt 42)]));
     col_error := Some "timeout" |}.

(** A row whose result column holds text that is not JSON. *)
Definition corrupt_row : Columns :=
  {| col_action := "purge_history";
     col_status := "complete";
     col_timestamp := 1010;
     col_resource_id := None;
     col_params := None;
     col_result := Some "{";
     col_error := None |}.

(** A row without resource id. *)
Definition unscoped_row : Columns :=
  {| col_action := "send_mail";
     col_status := "active";
     col_timestamp := 7;
     col_resource_id := None;
     col_params := None;
     col_result := None;
     col_error := None |}.

Definition purge_table : gmap string Columns := {[ "t1" := purge_row ]}.

Definition ended_table : gmap string Columns :=
  <[ "t2" := unscoped_row ]> {[ "t1" := ended_row ]}.

Definition corrupt_table : gmap string Columns :=
  <[ "t1" := purge_row ]> {[ "t3" := corrupt_row ]}.

(** Three updates: a retry of [t1], an update without a target, and an
    update of [t1] that supplies a new result. *)
Definition example_calls : list update_call :=
  [ {| call_id := "t1"; call_timestamp := Some 2000;
       call_status := Some SCHEDULED; call_result := JNull;
       call_error := None |};
    {| call_id := "t9"; call_timestamp := None; call_status := Some FAILED;
       call_result := JNull; call_error := Some "lost" |};
    {| call_id := "t1"; call_timestamp := None;
       call_status := Some COMPLETE;
       call_result := JObj [("rows_deleted", JInt 43)];
       call_error := None |} ].

(** The tasks of [ended_table], as list returns them. *)
Definition ended_tasks : list ScheduledTask :=
  [ {| id := "t1"; action := "purge_history"; status := FAILED;
       timestamp := 1010; resource_id := Some "room1";
       params := JObj [("before", JInt 500)];
       result := JObj [("rows_deleted", JInt 42)];
       error := Some "timeout" |};
    {| id := "t2"; action := "send_mail"; status := ACTIVE; timestamp := 7;
       resource_id := None; params := JNull; result := JNull;
       error := None |} ].



(** ** The store *)

Section TaskSchedulerWorkerStore.

(** [json.dumps] and [json.loads]; [loads] gives [None] where Python
    raises [JSONDecodeError]. *)
Variable dumps : json → string.
Variable loads : string → option json.

Definition json_loads (text : string) : res json :=
  match loads text with Some v => Ok v | None => Raise JSONDecodeError end.

(** [_convert_row_to_task]: the status first, then params, then result,
    each replaced in the row before the task is built from it. *)
Definition _convert_row_to_task (row : Row) : res ScheduledTask :=
  row_status ← TaskStatus_of (col_status row.2);
  row_params ←
    match col_params row.2 with
    | Some text => json_loads text
    | None => Ok JNull
    end;
  row_result ←
    match col_result row.2 with
    | Some text => json_loads text
    | None => Ok JNull
    end;
  Ok {| id := row.1;
        action := col_action row.2;
        status := row_status;
        timestamp := col_timestamp row.2;
        resource_id := col_resource_id row.2;
        params := row_params;
        result := row_result;
        error := col_error row.2 |}.

(** The transaction of [get_scheduled_tasks]: a clause and its arguments
    for each filter that is not [None], then the SELECT. *)
Definition get_scheduled_tasks_txn (db : gmap string Columns)
    (actions resource_ids : option (list string))
    (statuses : option (list TaskStatus)) : res (list Row) :=
  let clauses : list clause := [] in
  let args : list sqlval := [] in
  let '(clauses, args) :=
    match actions with
    | Some actions =>
        let '(clause, temp_args) :=
          make_in_list_sql_clause "action" (SText <$> actions) in
        (clauses ++ [clause], args ++ temp_args)
    | None => (clauses, args)
    end in
  let '(clauses, args) :=
    match resource_ids with
    | Some resource_ids =>
        let '(clause, temp_args) :=
          make_in_list_sql_clause "resource_id" (SText <$> resource_ids) in
        (clauses ++ [clause], args ++ temp_args)
    | None => (clauses, args)
    end in
  let '(clauses, args) :=
    match statuses with
    | Some statuses =>
        let '(clause, temp_args) :=
          make_in_list_sql_clause "status"
            (SText ∘ TaskStatus_value <$> statuses) in
        (clauses ++ [clause], args ++ temp_args)
    | None => (clauses, args)
    end in
  let sql :=
    match clauses with
    | [] => SELECT_ALL
    | _ => SELECT_WHERE clauses
    end in
  execute db sql args.

Definition get_scheduled_tasks (db : gmap string Columns)
    (actions resource_ids : option (list string))
    (statuses : option (list TaskStatus)) : res (list ScheduledTask) :=
  rows ← get_scheduled_tasks_txn db actions resource_ids statuses;
  mapM _convert_row_to_task rows.

Definition upsert_scheduled_task (db : gmap string Columns)
    (task : ScheduledTask) : res (gmap string Columns) :=
  simple_upsert db (id task)
    (list_to_map
       [("action", SText (action task));
        ("status", SText (TaskStatus_value (status task)));
        ("timestamp", SInt (timestamp task));
        ("resource_id", nullable (resource_id task));
        ("params",
          if is_None (params task) then SNull
          else SText (dumps (params task)));
        ("result",
          if is_None (result task) then SNull
          else SText (dumps (result task)));
        ("error", nullable (error task))]).

(** [update_scheduled_task]; an argument left at its default is [None]. *)
Definition update_scheduled_task (db : gmap string Columns) (id : string)
    (timestamp : option Z) (status : option TaskStatus) (result : json)
    (error : option string) : res (gmap string Columns * bool) :=
  let updatevalues : gmap string sqlval := ∅ in
  let updatevalues :=
    match timestamp with
    | Some timestamp => <["timestamp" := SInt timestamp]> updatevalues
    | None => updatevalues
    end in
  let updatevalues :=
    match status with
    | Some status =>
        <["status" := SText (TaskStatus_value status)]> updatevalues
    | None => updatevalues
    end in
  let updatevalues :=
    if is_None result then updatevalues
    else <["result" := SText (dumps result)]> updatevalues in
  let updatevalues :=
    match error with
    | Some error => <["error" := SText error]> updatevalues
    | None => updatevalues
    end in
  '(db, nb_rows) ← simple_update db id updatevalues;
  Ok (db, bool_decide (0 < nb_rows)%nat).

Definition get_scheduled_task (db : gmap string Columns) (id : string)
  : res (option ScheduledTask) :=
  match simple_select_one db id with
  | Some row => Some <$> _convert_row_to_task row
  | None => Ok None
  end.

Definition delete_scheduled_task (db : gmap string Columns) (id : string)
  : res (gmap string Columns) :=
  Ok (simple_delete db id).

(** *** Callers *)

(** A sequence of updates, each on the table the previous one left; the
    first exception ends it. *)
Fixpoint update_all (db : gmap string Columns) (calls : list update_call)
  : res (gmap string Columns) :=
  match calls with
  | [] => Ok db
  | c :: calls =>
      '(db, _) ← update_scheduled_task db (call_id c) (call_timestamp c)
                   (call_status c) (call_result c) (call_error c);
      update_all db calls
  end.

(** One of the three blocks of [get_scheduled_tasks_txn]: the clause
    and arguments of a filter appended to those collected so far. *)
Definition add_filter (column : string) (filter : option (list sqlval))
    (q : list clause * list sqlval) : list clause * list sqlval :=
  match filter with
  | Some values =>
      let '(clause, temp_args) := make_in_list_sql_clause column values in
      (q.1 ++ [clause], q.2 ++ temp_args)
  | None => q
  end.

Definition filter_holds (column : string) (filter : option (list sqlval))
    (row : gmap string sqlval) : bool :=
  match filter with
  | Some values =>
      clause_holds (make_in_list_sql_clause column values).1
        (make_in_list_sql_clause column values).2 row
  | None => true
  end.

Definition query_ok (q : list clause * list sqlval) : Prop :=
  Forall (λ c, clause_column c ∈ column_names) q.1
  ∧ sum_list_with placeholders q.1 = length q.2.

(** *** The contract in the spec's words *)

(** A filter argument against a column: absent, no constraint; the empty
    collection, the column is NULL; otherwise the column's value is one
    of the collection. *)
Definition three_state (filter : option (list string))
    (column : option string) : Prop :=
  match filter with
  | None => True
  | Some [] => column = None
  | Some values => ∃ x, x ∈ values ∧ column = Some x
  end.

#[global] Instance three_state_dec filter column :
  Decision (three_state filter column).
Proof.
  destruct filter as [[|x l]|]; simpl; [apply _| |apply _].
  destruct column as [c|].
  - destruct (decide (c ∈ x :: l)) as [Hin|Hout].
    + left. by exists c.
    + right. intros (y & Hy & [= ->]). done.
  - right. by intros (y & _ & ?).
Defined.

(** The rows list selects: those of the table that pass the three
    filters, each read in the spec's words. *)
Definition selected (actions resource_ids : option (list string))
    (statuses : option (list TaskStatus)) (row : Row) : Prop :=
  three_state actions (Some (col_action row.2))
  ∧ three_state resource_ids (col_resource_id row.2)
  ∧ three_state (fmap (M:=list) TaskStatus_value <$> statuses)
      (Some (col_status row.2)).

(** The columns after a partial update: a supplied field takes the new
    value, an omitted one keeps the stored value; action, resource_id
    and params are not among the fields. *)
Definition partial_update (timestamp : option Z)
    (status : option TaskStatus) (result : json) (error : option string)
    (old : Columns) : Columns :=
  {| col_action := col_action old;
     col_status :=
       match status with
       | Some st => TaskStatus_value st
       | None => col_status old
       end;
     col_timestamp := default (col_timestamp old) timestamp;
     col_resource_id := col_resource_id old;
     col_params := col_params old;
     col_result :=
       if is_None result then col_result old else Some (dumps result);
     col_error :=
       match error with Some e => Some e | None => col_error old end |}.

(** The row upsert writes for a task: lines 111 to 119. *)
Definition task_columns (task : ScheduledTask) : Columns :=
  {| col_action := action task;
     col_status := TaskStatus_value (status task);
     col_timestamp := timestamp task;
     col_resource_id := resource_id task;
     col_params :=
       if is_None (params task) then None else Some (dumps (params task));
     col_result :=
       if is_None (result task) then None else Some (dumps (result task));
     col_error := error task |}.


(** Two updates that supply no field in common. *)
Definition disjoint_fields (c1 c2 : update_call) : Prop :=
  (call_timestamp c1 = None ∨ call_timestamp c2 = None)
  ∧ (call_status c1 = None ∨ call_status c2 = None)
  ∧ (call_result c1 = JNull ∨ call_result c2 = JNull)
  ∧ (call_error c1 = None ∨ call_error c2 = None).





(** Two values of a filter argument that are both absent, or both
    collections with the same members. *)
Definition same_members {A} (filter filter' : option (list A)) : Prop :=
  match filter, filter' with
  | None, None => True
  | Some l, Some l' => ∀ x, x ∈ l ↔ x ∈ l'
  | _, _ => False
  end.


(** ** Lemmas on the database primitives *)

Lemma TaskStatus_of_value (st : TaskStatus) :
  TaskStatus_of (TaskStatus_value st) = Ok st.
Proof. by destruct st. Qed.

Lemma TaskStatus_of_Ok (text : string) (st : TaskStatus) :
  TaskStatus_of text = Ok st → TaskStatus_value st = text.
Proof.
  unfold TaskStatus_of. repeat case_decide; intros [= <-]; by subst.
Qed.

Lemma TaskStatus_of_Raise (text : string) :
  (∀ st, TaskStatus_value st ≠ text) → TaskStatus_of text = Raise ValueError.
Proof.
  intros Hno. unfold TaskStatus_of.
  repeat case_decide; subst; try done.
  - by destruct (Hno SCHEDULED).
  - by destruct (Hno ACTIVE).
  - by destruct (Hno COMPLETE).
  - by destruct (Hno FAILED).
Qed.

Lemma new_columns_all a s t r p u e :
  new_columns
    (list_to_map
       [("action", SText a); ("status", SText s); ("timestamp", SInt t);
        ("resource_id", nullable r); ("params", nullable p);
        ("result", nullable u); ("error", nullable e)])
  = Ok {| col_action := a; col_status := s; col_timestamp := t;
          col_resource_id := r; col_params := p; col_result := u;
          col_error := e |}.
Proof. destruct r, p, u, e; vm_compute; reflexivity. Qed.

Lemma simple_update_partial db key timestamp status result error :
  simple_update db key
    (let updatevalues : gmap string sqlval := ∅ in
     let updatevalues :=
       match timestamp with
       | Some timestamp => <["timestamp" := SInt timestamp]> updatevalues
       | None => updatevalues
       end in
     let updatevalues :=
       match status with
       | Some status =>
           <["status" := SText (TaskStatus_value status)]> updatevalues
       | None => updatevalues
       end in
     let updatevalues :=
       if is_None result then updatevalues
       else <["result" := SText (dumps result)]> updatevalues in
     match error with
     | Some error => <["error" := SText error]> updatevalues
     | None => updatevalues
     end)
  = Ok match db !! key with
       | Some old =>
           (<[key := partial_update timestamp status result error old]> db,
            1%nat)
       | None => (db, 0%nat)
       end.
Proof.
  unfold simple_update. destruct (db !! key) as [old|]; [|done].
  assert (∀ m : gmap string sqlval,
    m !! "id" = None →
    ∀ cols, set_columns m old = Ok cols →
    (key' ← assigned text_of (m !! "id") key;
     cols ← set_columns m old;
     if decide (key' = key) then Ok (<[key := cols]> db, 1%nat)
     else match db !! key' with
          | Some _ => Raise StorageError
          | None => Ok (<[key' := cols]> (delete key db), 1%nat)
          end) = Ok (<[key := cols]> db, 1%nat)) as Hrun.
  { intros m -> cols ->. simpl. by rewrite decide_True. }
  unfold partial_update.
  destruct timestamp, status, (is_None result), error;
    apply Hrun; vm_compute; reflexivity.
Qed.

Lemma update_scheduled_task_eq db key timestamp status result error :
  update_scheduled_task db key timestamp status result error
  = Ok match db !! key with
       | Some old =>
           (<[key := partial_update timestamp status result error old]> db,
            true)
       | None => (db, false)
       end.
Proof.
  unfold update_scheduled_task. cbv zeta.
  pose proof (simple_update_partial db key timestamp status result error)
    as Hupd.
  cbv zeta in Hupd. rewrite Hupd. by destruct (db !! key).
Qed.

Lemma upsert_scheduled_task_eq db task :
  upsert_scheduled_task db task
  = Ok (<[id task :=
           {| col_action := action task;
              col_status := TaskStatus_value (status task);
              col_timestamp := timestamp task;
              col_resource_id := resource_id task;
              col_params :=
                if is_None (params task) then None
                else Some (dumps (params task));
              col_result :=
                if is_None (result task) then None
                else Some (dumps (result task));
              col_error := error task |}]> db).
Proof.
  unfold upsert_scheduled_task, simple_upsert.
  replace (if is_None (params task) then SNull
           else SText (dumps (params task)))
    with (nullable (if is_None (params task) then None
                    else Some (dumps (params task))))
    by by destruct (is_None _).
  replace (if is_None (result task) then SNull
           else SText (dumps (result task)))
    with (nullable (if is_None (result task) then None
                    else Some (dumps (result task))))
    by by destruct (is_None _).
  rewrite new_columns_all.
  match goal with
  | |- context [@bool_decide ?P ?dec] =>
      assert (@bool_decide P dec = false) as ->
        by (repeat destruct (is_None _);
            destruct (resource_id task), (error task);
            vm_compute; reflexivity)
  end.
  done.
Qed.

(** ** Lemmas on reading rows *)

Lemma mapM_Ok {A B} (f : A → res B) (l : list A) (ys : list B) :
  mapM f l = Ok ys ↔ Forall2 (λ x y, f x = Ok y) l ys.
Proof.
  revert ys. induction l as [|x l IH]; intros ys; simpl.
  - split; [intros [= <-]; constructor | by inversion 1].
  - split.
    + destruct (f x) as [y|] eqn:Hx; [|done]. simpl.
      destruct (mapM f l) as [k|] eqn:Hl; [|done]. simpl.
      intros [= <-]. constructor; [done|]. by apply IH.
    + inversion 1 as [|? y ? k Hx Hl]; subst. rewrite Hx. simpl.
      apply IH in Hl. by rewrite Hl.
Qed.

Lemma mapM_raises {A B} (f : A → res B) (l : list A) (x : A) :
  x ∈ l → raises (f x) = true → raises (mapM f l) = true.
Proof.
  induction l as [|x' l IH]; [by inversion 1|].
  intros [->|Hin]%elem_of_cons Hx; simpl.
  - by destruct (f x').
  - destruct (f x'); [|done]. simpl.
    specialize (IH Hin Hx). by destruct (mapM f l).
Qed.

Lemma mapM_Ok_elem {A B} (f : A → res B) (l : list A) (ys : list B) (x : A) :
  mapM f l = Ok ys → x ∈ l → ∃ y, f x = Ok y ∧ y ∈ ys.
Proof.
  intros Hall%mapM_Ok. induction Hall as [|x' y l k Hx _ IH].
  - by inversion 1.
  - intros [->|Hin]%elem_of_cons.
    + exists y. split; [done|]. apply elem_of_cons. by left.
    + destruct (IH Hin) as (y' & Hy' & Hin'). exists y'.
      split; [done|]. apply elem_of_cons. by right.
Qed.

(** ** Lemmas on the SELECT of list *)

Lemma make_in_list_sql_clause_column column values :
  clause_column (make_in_list_sql_clause column values).1 = column.
Proof. by destruct values. Qed.

Lemma make_in_list_sql_clause_placeholders column values :
  placeholders (make_in_list_sql_clause column values).1
  = length (make_in_list_sql_clause column values).2.
Proof. by destruct values. Qed.

Lemma where_holds_app cs cs' args args' row :
  sum_list_with placeholders cs = length args →
  where_holds (cs ++ cs') (args ++ args') row
  = where_holds cs args row && where_holds cs' args' row.
Proof.
  revert args. induction cs as [|c cs IH]; intros args Hlen; simpl in *.
  - symmetry in Hlen. by apply nil_length_inv in Hlen as ->.
  - rewrite take_app_le, drop_app_le by lia.
    rewrite IH; [by rewrite andb_assoc|].
    rewrite length_drop. lia.
Qed.

Lemma add_filter_ok column filter q :
  column ∈ column_names → query_ok q → query_ok (add_filter column filter q).
Proof.
  intros Hcol [Hcols Hlen]. destruct filter as [values|]; [|done].
  unfold add_filter.
  pose proof (make_in_list_sql_clause_column column values) as Hc.
  pose proof (make_in_list_sql_clause_placeholders column values) as Hp.
  destruct (make_in_list_sql_clause column values) as [c targs].
  simpl in *. split; simpl.
  - apply Forall_app. split; [done|]. apply Forall_singleton. by rewrite Hc.
  - rewrite sum_list_with_app, length_app. simpl. lia.
Qed.

Lemma add_filter_holds column filter q row :
  query_ok q →
  where_holds (add_filter column filter q).1 (add_filter column filter q).2 row
  = where_holds q.1 q.2 row && filter_holds column filter row.
Proof.
  intros [_ Hlen]. destruct filter as [values|]; simpl.
  - pose proof (make_in_list_sql_clause_placeholders column values) as Hp.
    destruct (make_in_list_sql_clause column values) as [c targs].
    simpl in *. rewrite where_holds_app by done. simpl.
    rewrite Hp, firstn_all. by rewrite andb_true_r.
  - by rewrite andb_true_r.
Qed.

Lemma execute_collected db q :
  query_ok q →
  execute db (match q.1 with [] => SELECT_ALL | _ => SELECT_WHERE q.1 end) q.2
  = Ok (filter (λ row, where_holds q.1 q.2 (row_dict row)) (map_to_list db)).
Proof.
  destruct q as [[|c cs] args]; intros [Hcols Hlen]; simpl in *.
  - symmetry in Hlen. apply nil_length_inv in Hlen as ->.
    unfold execute. simpl. f_equal.
    induction (map_to_list db) as [|row l IH]; [done|].
    rewrite filter_cons_True by done. by f_equal.
  - unfold execute, statement_ok.
    rewrite bool_decide_eq_true_2 by done.
    rewrite (proj2 (bool_decide_eq_true _) Hlen).
    assert (forallb (λ c, bool_decide (clause_column c ∈ column_names))
              (c :: cs) = true) as ->; [|done].
    apply Is_true_true, forallb_True.
    eapply Forall_impl; [done|]. intros c' Hc'. by apply bool_decide_spec.
Qed.

Lemma filter_holds_three_state column (values : option (list string))
    (v : option string) row :
  row !! column = Some (nullable v) →
  filter_holds column (fmap (M:=list) SText <$> values) row
  ↔ three_state values v.
Proof.
  intros Hrow. destruct values as [[|x l]|]; simpl; rewrite ?Hrow.
  - rewrite bool_decide_spec. destruct v; naive_solver.
  - rewrite bool_decide_spec. split.
    + intros [Hnull Hin].
      apply (list_elem_of_fmap SText (x :: l)) in Hin as (y & Hy & Hin).
      exists y. split; [done|]. by destruct v; simplify_eq/=.
    + intros (y & Hin & ->). simpl. split; [done|].
      by apply (list_elem_of_fmap_2 SText (x :: l)).
  - done.
Qed.

Lemma get_scheduled_tasks_txn_collected db actions resource_ids statuses :
  get_scheduled_tasks_txn db actions resource_ids statuses
  = let q :=
      add_filter "status" (fmap (M:=list) (SText ∘ TaskStatus_value) <$> statuses)
        (add_filter "resource_id" (fmap (M:=list) SText <$> resource_ids)
           (add_filter "action" (fmap (M:=list) SText <$> actions) ([], []))) in
    execute db (match q.1 with [] => SELECT_ALL | _ => SELECT_WHERE q.1 end)
      q.2.
Proof.
  by destruct actions as [[|??]|], resource_ids as [[|??]|],
    statuses as [[|??]|].
Qed.

Lemma get_scheduled_tasks_txn_eq db actions resource_ids statuses :
  get_scheduled_tasks_txn db actions resource_ids statuses
  = Ok (filter (selected actions resource_ids statuses) (map_to_list db)).
Proof.
  rewrite get_scheduled_tasks_txn_collected. cbv zeta.
  assert (query_ok ([], [])) as H0 by (split; [constructor|done]).
  assert ("action" ∈ column_names) as Ha by (vm_compute; tauto).
  assert ("resource_id" ∈ column_names) as Hr by (vm_compute; tauto).
  assert ("status" ∈ column_names) as Hs by (vm_compute; tauto).
  pose proof (add_filter_ok "action" (fmap (M:=list) SText <$> actions) _ Ha H0) as H1.
  pose proof (add_filter_ok "resource_id" (fmap (M:=list) SText <$> resource_ids)
                _ Hr H1) as H2.
  rewrite execute_collected by by apply add_filter_ok.
  f_equal. apply list_filter_iff. intros row.
  rewrite !add_filter_holds by done. simpl.
  rewrite !andb_True. unfold selected.
  rewrite <-(filter_holds_three_state "action" actions
               (Some (col_action row.2)) (row_dict row)) by done.
  rewrite <-(filter_holds_three_state "resource_id" resource_ids
               (col_resource_id row.2) (row_dict row)) by done.
  rewrite <-(filter_holds_three_state "status"
               (fmap (M:=list) TaskStatus_value <$> statuses)
               (Some (col_status row.2)) (row_dict row)) by done.
  assert (fmap (M:=list) (SText ∘ TaskStatus_value) <$> statuses
          = fmap (M:=list) SText <$> (fmap (M:=list) TaskStatus_value <$> statuses)) as ->
    by (destruct statuses; simpl; by rewrite ?list_fmap_compose).
  simpl. tauto.
Qed.

(** ** The operations, one by one *)

Lemma rows_are_stored db actions resource_ids statuses rows key cols :
  get_scheduled_tasks_txn db actions resource_ids statuses = Ok rows →
  (key, cols) ∈ rows → db !! key = Some cols.
Proof.
  rewrite get_scheduled_tasks_txn_eq. intros [= <-].
  intros [_ Hin]%list_elem_of_filter. by apply elem_of_map_to_list.
Qed.

Lemma mapM_Ok_elem_inv {A B} (f : A → res B) (l : list A) (ys : list B)
    (y : B) :
  mapM f l = Ok ys → y ∈ ys → ∃ x, x ∈ l ∧ f x = Ok y.
Proof.
  intros Hall%mapM_Ok. induction Hall as [|x y' l k Hx _ IH].
  - by inversion 1.
  - intros [->|Hin]%elem_of_cons.
    + exists x. split; [|done]. apply elem_of_cons. by left.
    + destruct (IH Hin) as (x' & Hin' & Hx'). exists x'.
      split; [|done]. apply elem_of_cons. by right.
Qed.

Lemma _convert_row_to_task_Ok row task :
  _convert_row_to_task row = Ok task →
  id task = row.1 ∧ TaskStatus_value (status task) = col_status row.2.
Proof.
  unfold _convert_row_to_task.
  destruct (TaskStatus_of (col_status row.2)) as [st|] eqn:Hst; [|done].
  simpl.
  destruct (match col_params row.2 with
            | Some text => json_loads text
            | None => Ok JNull
            end); [|done]. simpl.
  destruct (match col_result row.2 with
            | Some text => json_loads text
            | None => Ok JNull
            end); [|done]. simpl.
  intros [= <-]. simpl. split; [done|]. by apply TaskStatus_of_Ok.
Qed.

(** C1: the rows list selects are, each once, the stored rows that pass
    the three filters together, a filter being passed when it is absent,
    when it is the empty collection and the column is NULL, or when it is
    a non-empty collection holding the column's value; the tasks returned
    are those rows converted.  Without filters the rows are all the
    stored rows, so that a list that succeeds returns a task for every
    stored row and no other task. *)
Theorem list_filters_are_three_state db actions resource_ids statuses :
  ∃ rows,
    get_scheduled_tasks_txn db actions resource_ids statuses = Ok rows
    ∧ NoDup rows
    ∧ (∀ key cols,
         (key, cols) ∈ rows ↔
           db !! key = Some cols
           ∧ three_state actions (Some (col_action cols))
           ∧ three_state resource_ids (col_resource_id cols)
           ∧ three_state (fmap (M:=list) TaskStatus_value <$> statuses)
               (Some (col_status cols)))
    ∧ get_scheduled_tasks db actions resource_ids statuses
      = mapM _convert_row_to_task rows
    ∧ get_scheduled_tasks db None None None
      = mapM _convert_row_to_task (map_to_list db)
    ∧ (∀ tasks,
         get_scheduled_tasks db None None None = Ok tasks →
         (∀ key cols, db !! key = Some cols →
            ∃ task, _convert_row_to_task (key, cols) = Ok task
                    ∧ task ∈ tasks)
         ∧ (∀ task, task ∈ tasks →
              ∃ cols, db !! id task = Some cols
                      ∧ _convert_row_to_task (id task, cols) = Ok task)).
Proof.
  exists (filter (selected actions resource_ids statuses) (map_to_list db)).
  assert (get_scheduled_tasks db None None None
          = mapM _convert_row_to_task (map_to_list db)) as Hall.
  { unfold get_scheduled_tasks. rewrite get_scheduled_tasks_txn_eq. simpl.
    f_equal. induction (map_to_list db) as [|row l IH]; [done|].
    rewrite filter_cons_True; [by f_equal|]. by repeat split. }
  split; [apply get_scheduled_tasks_txn_eq|].
  split; [apply NoDup_filter, NoDup_map_to_list|].
  split; [|split; [|split; [done|]]].
  - intros key cols. rewrite list_elem_of_filter, elem_of_map_to_list.
    unfold selected. simpl. tauto.
  - unfold get_scheduled_tasks. by rewrite get_scheduled_tasks_txn_eq.
  - intros tasks. rewrite Hall. intros Htasks. split.
    + intros key cols Hin%elem_of_map_to_list.
      by apply (mapM_Ok_elem _ _ _ _ Htasks).
    + intros task Hin.
      destruct (mapM_Ok_elem_inv _ _ _ _ Htasks Hin)
        as ([key cols] & Hrow%elem_of_map_to_list & Hconv).
      destruct (_convert_row_to_task_Ok _ _ Hconv) as [Hid _].
      simpl in Hid. subst key. by exists cols.
Qed.

(** C3: on an existing task, update modifies the fields timestamp,
    status, result and error that are supplied, and only them: an omitted
    field keeps its stored value, and action, resource_id and params
    keep theirs whatever is supplied; the row stays under its id and all
    other rows are left as they were. *)
Theorem update_modifies_only_supplied_fields
    db key timestamp status result error old :
  db !! key = Some old →
  ∃ new,
    update_scheduled_task db key timestamp status result error
    = Ok (<[key := new]> db, true)
    ∧ col_timestamp new
      = match timestamp with Some t => t | None => col_timestamp old end
    ∧ col_status new
      = match status with
        | Some st => TaskStatus_value st
        | None => col_status old
        end
    ∧ col_result new
      = (if is_None result then col_result old else Some (dumps result))
    ∧ col_error new
      = match error with Some e => Some e | None => col_error old end
    ∧ col_action new = col_action old
    ∧ col_resource_id new = col_resource_id old
    ∧ col_params new = col_params old.
Proof.
  intros Hold. exists (partial_update timestamp status result error old).
  rewrite update_scheduled_task_eq, Hold.
  by repeat split.
Qed.

(** C4: update on an id that identifies no stored task returns false,
    raises nothing and leaves the table as it was; on an id that
    identifies a stored task it returns true. *)
Theorem update_reports_missing_target db key timestamp status result error :
  (db !! key = None →
   update_scheduled_task db key timestamp status result error
   = Ok (db, false))
  ∧ (is_Some (db !! key) →
     ∃ db',
       update_scheduled_task db key timestamp status result error
       = Ok (db', true)).
Proof.
  rewrite update_scheduled_task_eq. split.
  - by intros ->.
  - intros [old ->]. by eexists.
Qed.

(** C5: upsert stores, under the task's id, a row made of the task's
    attributes alone, whatever the table held; params and result are
    encoded exactly when they are present, an absent one is stored as
    NULL, and an empty dict is stored as its encoding, not as NULL. *)
Theorem upsert_replaces_wholesale db task :
  ∃ cols,
    upsert_scheduled_task db task = Ok (<[id task := cols]> db)
    ∧ col_action cols = action task
    ∧ col_status cols = TaskStatus_value (status task)
    ∧ col_timestamp cols = timestamp task
    ∧ col_resource_id cols = resource_id task
    ∧ col_error cols = error task
    ∧ col_params cols
      = match params task with
        | JNull => None
        | v => Some (dumps v)
        end
    ∧ col_result cols
      = match result task with
        | JNull => None
        | v => Some (dumps v)
        end
    ∧ (col_params cols = None ↔ params task = JNull)
    ∧ (col_result cols = None ↔ result task = JNull).
Proof.
  rewrite upsert_scheduled_task_eq. eexists. split; [done|]. simpl.
  repeat split; try by destruct (params task); try by destruct (result task).
Qed.

(** C6: get on an id without a stored row returns None and raises
    nothing; on an id with a stored row it returns what
    [_convert_row_to_task] makes of that row, the conversion list applies
    to each row it selects, so that a list which selects the row and
    succeeds contains the task get returns. *)
Theorem get_absent_or_deserialized db key :
  (db !! key = None → get_scheduled_task db key = Ok None)
  ∧ (∀ cols, db !! key = Some cols →
       get_scheduled_task db key = Some <$> _convert_row_to_task (key, cols))
  ∧ (∀ cols actions resource_ids statuses rows tasks,
       db !! key = Some cols →
       get_scheduled_tasks_txn db actions resource_ids statuses = Ok rows →
       (key, cols) ∈ rows →
       get_scheduled_tasks db actions resource_ids statuses = Ok tasks →
       ∃ task, get_scheduled_task db key = Ok (Some task) ∧ task ∈ tasks).
Proof.
  unfold get_scheduled_task, simple_select_one. split; [|split].
  - by intros ->.
  - by intros cols ->.
  - intros cols actions resource_ids statuses rows tasks -> Hrows Hin.
    unfold get_scheduled_tasks. rewrite Hrows. simpl. intros Htasks.
    destruct (mapM_Ok_elem _ _ _ _ Htasks Hin) as (task & -> & Htask).
    by exists task.
Qed.

(** C7: delete raises nothing, removes the row of the given id and no
    other, so that get on that id returns None; deleting again, or
    deleting an id that has no row, changes nothing. *)
Theorem delete_is_idempotent db key :
  ∃ db',
    delete_scheduled_task db key = Ok db'
    ∧ db' !! key = None
    ∧ (∀ other, other ≠ key → db' !! other = db !! other)
    ∧ get_scheduled_task db' key = Ok None
    ∧ delete_scheduled_task db' key = Ok db'
    ∧ (db !! key = None → db' = db).
Proof.
  exists (delete key db).
  unfold delete_scheduled_task, simple_delete, get_scheduled_task,
    simple_select_one.
  rewrite lookup_delete_eq. repeat split.
  - intros other Hne. by rewrite lookup_delete_ne.
  - f_equal. apply delete_id. apply lookup_delete_eq.
  - apply delete_id.
Qed.

(** C8: when the params or the result column of a stored row holds
    text that [json.loads] rejects, converting the row raises, get on its
    id raises the same exception ([JSONDecodeError], unless the status is
    rejected first), and every list that selects the row raises: no
    value is put in place of the text and no list without the row is
    returned. *)
Theorem malformed_json_fails_the_read db key cols text :
  db !! key = Some cols →
  col_params cols = Some text ∨ col_result cols = Some text →
  loads text = None →
  (∃ e,
     _convert_row_to_task (key, cols) = Raise e
     ∧ get_scheduled_task db key = Raise e
     ∧ e = (if raises (TaskStatus_of (col_status cols)) then ValueError
            else JSONDecodeError))
  ∧ (∀ actions resource_ids statuses rows,
       get_scheduled_tasks_txn db actions resource_ids statuses = Ok rows →
       (key, cols) ∈ rows →
       raises (get_scheduled_tasks db actions resource_ids statuses) = true).
Proof.
  intros Hrow Hcol Htext.
  assert (∃ e, _convert_row_to_task (key, cols) = Raise e
               ∧ e = (if raises (TaskStatus_of (col_status cols))
                      then ValueError else JSONDecodeError))
    as (e & Hconv & He).
  { unfold _convert_row_to_task. simpl.
    destruct (TaskStatus_of (col_status cols)) as [st|e'] eqn:Hst; simpl.
    - exists JSONDecodeError. split; [|done].
      assert (json_loads text = Raise JSONDecodeError) as Hbad
        by (unfold json_loads; by rewrite Htext).
      destruct Hcol as [-> | ->].
      + by rewrite Hbad.
      + destruct (col_params cols) as [ptext|]; simpl.
        * destruct (json_loads ptext) as [|e'] eqn:Hp; simpl.
          -- by rewrite Hbad.
          -- revert Hp. unfold json_loads.
             destruct (loads ptext); [done|]. by intros [= <-].
        * by rewrite Hbad.
    - exists e'. split; [done|].
      revert Hst. unfold TaskStatus_of.
      repeat case_decide; by intros [= <-]. }
  split.
  - exists e. unfold get_scheduled_task, simple_select_one.
    rewrite Hrow. simpl. by rewrite Hconv.
  - intros actions resource_ids statuses rows Hrows Hin.
    unfold get_scheduled_tasks. rewrite Hrows. simpl.
    apply (mapM_raises _ _ _ Hin). by rewrite Hconv.
Qed.

Lemma TaskStatus_value_enum (st : TaskStatus) :
  TaskStatus_value st ∈ ["scheduled"; "active"; "complete"; "failed"].
Proof. destruct st; simpl; set_solver. Qed.

(** C10: the status of a task that get or list returns is the member of
    the enum whose value the row's status column holds, one of the four
    strings; when the column holds another string, get on the row's id
    raises [ValueError] and every list that selects the row raises. *)
Theorem status_is_enumerated_or_read_fails db :
  (∀ key task,
     get_scheduled_task db key = Ok (Some task) →
     ∃ cols,
       db !! key = Some cols
       ∧ col_status cols = TaskStatus_value (status task)
       ∧ col_status cols ∈ ["scheduled"; "active"; "complete"; "failed"])
  ∧ (∀ actions resource_ids statuses tasks task,
       get_scheduled_tasks db actions resource_ids statuses = Ok tasks →
       task ∈ tasks →
       ∃ cols,
         db !! id task = Some cols
         ∧ col_status cols = TaskStatus_value (status task)
         ∧ col_status cols ∈ ["scheduled"; "active"; "complete"; "failed"])
  ∧ (∀ key cols,
       db !! key = Some cols →
       (∀ st, TaskStatus_value st ≠ col_status cols) →
       get_scheduled_task db key = Raise ValueError
       ∧ ∀ actions resource_ids statuses rows,
           get_scheduled_tasks_txn db actions resource_ids statuses
           = Ok rows →
           (key, cols) ∈ rows →
           raises (get_scheduled_tasks db actions resource_ids statuses)
           = true).
Proof.
  split; [|split].
  - intros key task. unfold get_scheduled_task, simple_select_one.
    destruct (db !! key) as [cols|]; [|done]. simpl.
    destruct (_convert_row_to_task (key, cols)) as [task'|] eqn:Hconv;
      [|done]. simpl. intros [= ->].
    apply _convert_row_to_task_Ok in Hconv as [_ Hst]. simpl in Hst.
    exists cols. rewrite <-Hst. split; [done|]. split; [done|].
    apply TaskStatus_value_enum.
  - intros actions resource_ids statuses tasks task.
    unfold get_scheduled_tasks.
    destruct (get_scheduled_tasks_txn db actions resource_ids statuses)
      as [rows|] eqn:Hrows; [|done]. simpl. intros Htasks Hin.
    destruct (mapM_Ok_elem_inv _ _ _ _ Htasks Hin)
      as ([key cols] & Hrow & Hconv).
    apply (rows_are_stored _ _ _ _ _ _ _ Hrows) in Hrow.
    apply _convert_row_to_task_Ok in Hconv as [Hid Hst]. simpl in *.
    exists cols. rewrite Hid, <-Hst. split; [done|]. split; [done|].
    apply TaskStatus_value_enum.
  - intros key cols Hrow Hbad.
    assert (_convert_row_to_task (key, cols) = Raise ValueError) as Hconv.
    { unfold _convert_row_to_task. simpl.
      by rewrite TaskStatus_of_Raise. }
    split.
    + unfold get_scheduled_task, simple_select_one. rewrite Hrow. simpl.
      by rewrite Hconv.
    + intros actions resource_ids statuses rows Hrows Hin.
      unfold get_scheduled_tasks. rewrite Hrows. simpl.
      apply (mapM_raises _ _ _ Hin). by rewrite Hconv.
Qed.

(** ** How the operations compose *)

Lemma upsert_scheduled_task_columns db task :
  upsert_scheduled_task db task = Ok (<[id task := task_columns task]> db).
Proof. apply upsert_scheduled_task_eq. Qed.

Lemma update_scheduled_task_alter db key timestamp status result error :
  update_scheduled_task db key timestamp status result error
  = Ok (alter (partial_update timestamp status result error) key db,
        bool_decide (is_Some (db !! key))).
Proof.
  rewrite update_scheduled_task_eq. f_equal.
  destruct (db !! key) as [old|] eqn:Hold.
  - rewrite bool_decide_eq_true_2 by done. f_equal.
    apply map_eq. intros j. rewrite lookup_alter, lookup_insert.
    case_decide; [|done]. by rewrite Hold.
  - rewrite bool_decide_eq_false_2 by (by intros [? ?]).
    f_equal. symmetry. by apply alter_id'.
Qed.

Lemma update_all_cons db c calls :
  update_all db (c :: calls)
  = update_all
      (alter (partial_update (call_timestamp c) (call_status c)
                (call_result c) (call_error c)) (call_id c) db) calls.
Proof. simpl. by rewrite update_scheduled_task_alter. Qed.

Lemma alter_alter_eq {A} (f g : A → A) (m : gmap string A) i :
  alter f i (alter g i m) = alter (f ∘ g) i m.
Proof.
  apply map_eq. intros j. destruct (decide (i = j)) as [<-|Hne].
  - rewrite !lookup_alter_eq. by destruct (m !! i).
  - by rewrite !lookup_alter_ne.
Qed.

Lemma alter_alter_ne {A} (f g : A → A) (m : gmap string A) i j :
  i ≠ j → alter f i (alter g j m) = alter g j (alter f i m).
Proof.
  intros Hne. apply map_eq. intros k.
  destruct (decide (i = k)) as [<-|Hik].
  - rewrite (lookup_alter_eq f), !(lookup_alter_ne g) by done.
    by rewrite (lookup_alter_eq f).
  - rewrite (lookup_alter_ne f) by done.
    destruct (decide (j = k)) as [<-|Hjk].
    + by rewrite !(lookup_alter_eq g), (lookup_alter_ne f).
    + by rewrite !(lookup_alter_ne g), (lookup_alter_ne f).
Qed.


(** X1: an upsert after an upsert of the same id leaves what the second one
    alone leaves; in particular a repeated upsert changes nothing. *)
Theorem upsert_last_write_wins db task task' :
  id task = id task' →
  upsert_scheduled_task db task
    ≫= (λ db1, upsert_scheduled_task db1 task')
  = upsert_scheduled_task db task'.
Proof.
  intros Hid. rewrite !upsert_scheduled_task_columns. simpl.
  rewrite upsert_scheduled_task_columns, Hid. by rewrite insert_insert_eq.
Qed.


(** X3: a delete after an upsert of the same id leaves what the delete alone
    leaves: the table as it was when the id had no row. *)
Theorem upsert_then_delete_is_delete db task :
  upsert_scheduled_task db task
    ≫= (λ db1, delete_scheduled_task db1 (id task))
  = delete_scheduled_task db (id task)
  ∧ (db !! id task = None →
     upsert_scheduled_task db task
       ≫= (λ db1, delete_scheduled_task db1 (id task))
     = Ok db).
Proof.
  rewrite upsert_scheduled_task_columns. simpl.
  unfold delete_scheduled_task, simple_delete. rewrite delete_insert_eq.
  split; [done|]. intros Hnone. by rewrite delete_id.
Qed.

(** X4: two updates of different tasks, or of one task with no supplied field
    in common, leave the same table in either order. *)
Theorem updates_of_disjoint_fields_commute db c1 c2 :
  call_id c1 ≠ call_id c2 ∨ disjoint_fields c1 c2 →
  update_all db [c1; c2] = update_all db [c2; c1].
Proof.
  intros Hcalls. rewrite !update_all_cons. simpl. f_equal.
  destruct (decide (call_id c1 = call_id c2)) as [Heq|Hne];
    [|by apply alter_alter_ne].
  destruct Hcalls as [?|(Hts & Hst & Hres & Herr)]; [done|].
  rewrite Heq, !alter_alter_eq. apply alter_ext. intros old _.
  unfold partial_update. simpl. f_equal.
  - by destruct Hst as [-> | ->]; destruct (call_status _).
  - by destruct Hts as [-> | ->]; destruct (call_timestamp _).
  - by destruct Hres as [-> | ->]; destruct (is_None (call_result _)).
  - by destruct Herr as [-> | ->]; destruct (call_error _).
Qed.

(** X5: an update made twice leaves what it leaves made once. *)
Theorem update_twice_is_update_once db c :
  update_all db [c; c] = update_all db [c].
Proof.
  rewrite !update_all_cons. simpl. f_equal.
  rewrite alter_alter_eq. apply alter_ext. intros old _.
  unfold partial_update. simpl.
  by destruct (call_status c), (call_timestamp c),
    (is_None (call_result c)), (call_error c).
Qed.

(** X6: what get returns for one id is not changed by an upsert, an update or
    a delete of another id. *)
Theorem other_tasks_are_untouched db key other :
  other ≠ key →
  (∀ task db',
     id task = key → upsert_scheduled_task db task = Ok db' →
     get_scheduled_task db' other = get_scheduled_task db other)
  ∧ (∀ timestamp status result error db' found,
       update_scheduled_task db key timestamp status result error
       = Ok (db', found) →
       get_scheduled_task db' other = get_scheduled_task db other)
  ∧ (∀ db',
       delete_scheduled_task db key = Ok db' →
       get_scheduled_task db' other = get_scheduled_task db other).
Proof.
  intros Hne. unfold get_scheduled_task, simple_select_one.
  split; [|split].
  - intros task db' <-. rewrite upsert_scheduled_task_columns.
    intros [= <-]. by rewrite lookup_insert_ne.
  - intros timestamp status result error db' found.
    rewrite update_scheduled_task_alter. intros [= <- _].
    by rewrite lookup_alter_ne.
  - intros db'. unfold delete_scheduled_task, simple_delete.
    intros [= <-]. by rewrite lookup_delete_ne.
Qed.


(** ** What list returns *)

Lemma mapM_Raise {A B} (f : A → res B) (l : list A) (e : exn) :
  mapM f l = Raise e → ∃ x, x ∈ l ∧ f x = Raise e.
Proof.
  induction l as [|x l IH]; [done|]. simpl.
  destruct (f x) as [y|e'] eqn:Hx; simpl.
  - destruct (mapM f l) as [ys|e'] eqn:Hl; [done|]. simpl.
    intros [= ->]. destruct (IH eq_refl) as (x' & Hin & Hx').
    exists x'. split; [|done]. apply elem_of_cons. by right.
  - intros [= ->]. exists x. split; [|done]. apply elem_of_cons. by left.
Qed.

Lemma _convert_row_to_task_Raise row e :
  _convert_row_to_task row = Raise e → e = ValueError ∨ e = JSONDecodeError.
Proof.
  assert (∀ text e', json_loads text = Raise e' → e' = JSONDecodeError)
    as Hloads.
  { intros text e'. unfold json_loads.
    destruct (loads text); [done|]. by intros [= <-]. }
  unfold _convert_row_to_task.
  destruct (TaskStatus_of (col_status row.2)) as [st|e'] eqn:Hst; simpl.
  - destruct (col_params row.2) as [ptext|]; simpl.
    + destruct (json_loads ptext) as [p|e'] eqn:Hp; simpl;
        [|intros [= <-]; right; by eapply Hloads].
      destruct (col_result row.2) as [rtext|]; simpl; [|done].
      destruct (json_loads rtext) as [r|e'] eqn:Hr; simpl; [done|].
      intros [= <-]. right. by eapply Hloads.
    + destruct (col_result row.2) as [rtext|]; simpl; [|done].
      destruct (json_loads rtext) as [r|e'] eqn:Hr; simpl; [done|].
      intros [= <-]. right. by eapply Hloads.
  - intros [= <-]. left. revert Hst. unfold TaskStatus_of.
    repeat case_decide; by intros [= <-].
Qed.

Lemma converted_ids (rows : list Row) (tasks : list ScheduledTask) :
  Forall2 (λ row task, _convert_row_to_task row = Ok task) rows tasks →
  id <$> tasks = rows.*1.
Proof.
  induction 1 as [|row task rows tasks Hconv _ IH]; [done|].
  simpl. f_equal; [|done]. by apply _convert_row_to_task_Ok in Hconv as [-> _].
Qed.


Lemma three_state_same_members filter filter' column :
  same_members filter filter' →
  three_state filter column ↔ three_state filter' column.
Proof.
  destruct filter as [[|x l]|], filter' as [[|x' l']|]; simpl; try done.
  - intros Hsame. assert (x' ∈ @nil string) as Hin
      by (apply Hsame, elem_of_cons; by left).
    by apply elem_of_nil in Hin.
  - intros Hsame. assert (x ∈ @nil string) as Hin
      by (apply Hsame, elem_of_cons; by left).
    by apply elem_of_nil in Hin.
  - intros Hsame. split; intros (y & Hin & ->); exists y; split; try done;
      by apply Hsame.
Qed.

(** X8: the tasks of a list that succeeds have pairwise distinct ids, and get
    on the id of any of them returns that task. *)
Theorem listed_tasks_are_what_get_returns
    db actions resource_ids statuses tasks :
  get_scheduled_tasks db actions resource_ids statuses = Ok tasks →
  NoDup (id <$> tasks)
  ∧ ∀ task, task ∈ tasks → get_scheduled_task db (id task) = Ok (Some task).
Proof.
  unfold get_scheduled_tasks.
  destruct (get_scheduled_tasks_txn db actions resource_ids statuses)
    as [rows|] eqn:Hrows; [|done]. simpl. intros Htasks. split.
  - rewrite (converted_ids rows tasks) by by apply mapM_Ok.
    rewrite get_scheduled_tasks_txn_eq in Hrows. injection Hrows as <-.
    eapply sublist_NoDup; [apply (NoDup_fst_map_to_list db)|].
    apply fmap_sublist, sublist_filter.
  - intros task Hin.
    destruct (mapM_Ok_elem_inv _ _ _ _ Htasks Hin)
      as ([key cols] & Hrow & Hconv).
    apply (rows_are_stored _ _ _ _ _ _ _ Hrows) in Hrow.
    destruct (_convert_row_to_task_Ok _ _ Hconv) as [Hid _]. simpl in Hid.
    unfold get_scheduled_task, simple_select_one.
    rewrite Hid, Hrow. simpl. by rewrite Hconv.
Qed.

(** X9: a list raises only the exception that converting one of the rows it
    selects raises, a [ValueError] or a [JSONDecodeError]: the statement it
    builds is never refused. *)
Theorem list_raises_only_for_a_selected_row
    db actions resource_ids statuses e :
  get_scheduled_tasks db actions resource_ids statuses = Raise e →
  ∃ key cols,
    db !! key = Some cols
    ∧ selected actions resource_ids statuses (key, cols)
    ∧ _convert_row_to_task (key, cols) = Raise e
    ∧ (e = ValueError ∨ e = JSONDecodeError).
Proof.
  unfold get_scheduled_tasks. rewrite get_scheduled_tasks_txn_eq. simpl.
  intros ([key cols] & Hin & Hconv)%mapM_Raise.
  apply list_elem_of_filter in Hin as [Hsel Hin%elem_of_map_to_list].
  exists key, cols. split; [done|]. split; [done|]. split; [done|].
  by eapply _convert_row_to_task_Raise.
Qed.


(** X11: a filter is read as a set: collections with the same members, in any
    order and with any repetition, select the same rows. *)
Theorem filters_are_sets
    db actions actions' resource_ids resource_ids' statuses statuses' :
  same_members actions actions' →
  same_members resource_ids resource_ids' →
  same_members statuses statuses' →
  get_scheduled_tasks_txn db actions resource_ids statuses
  = get_scheduled_tasks_txn db actions' resource_ids' statuses'.
Proof.
  intros Ha Hr Hs. rewrite !get_scheduled_tasks_txn_eq. f_equal.
  apply list_filter_iff. intros row. unfold selected.
  rewrite (three_state_same_members actions actions') by done.
  rewrite (three_state_same_members resource_ids resource_ids') by done.
  rewrite (three_state_same_members
             (fmap (M:=list) TaskStatus_value <$> statuses)
             (fmap (M:=list) TaskStatus_value <$> statuses')); [done|].
  destruct statuses as [l|], statuses' as [l'|]; simpl in *; try done.
  intros x. rewrite !list_elem_of_fmap.
  split; intros (y & -> & Hy); exists y; (split; [done|by apply Hs]).
Qed.


(** *** With a codec that decodes what it encodes *)

(** Decoding an encoded value gives the value back. *)
Hypothesis loads_dumps : ∀ v, keys_unique v → loads (dumps v) = Some v.

(** C2: a task upserted and then fetched by its id comes back equal in
    every field; params and result come back as the values they were,
    through [json.dumps] on write and [json.loads] on read, and an
    absent one comes back absent. *)
Theorem upsert_then_get_round_trips db task :
  keys_unique (params task) →
  keys_unique (result task) →
  ∃ db',
    upsert_scheduled_task db task = Ok db'
    ∧ get_scheduled_task db' (id task) = Ok (Some task).
Proof.
  intros Hparams Hresult. rewrite upsert_scheduled_task_eq.
  eexists. split; [done|].
  unfold get_scheduled_task, simple_select_one.
  rewrite lookup_insert_eq. simpl.
  unfold _convert_row_to_task. simpl.
  rewrite TaskStatus_of_value. simpl.
  assert (∀ v, keys_unique v →
            match (if is_None v then None else Some (dumps v)) with
            | Some text => json_loads text
            | None => Ok JNull
            end = Ok v) as Hcodec.
  { intros v Hv. unfold json_loads.
    destruct (is_None v) eqn:Hnone; [by destruct v|].
    by rewrite loads_dumps. }
  rewrite !Hcodec by done. simpl. by destruct task.
Qed.

Lemma partial_update_keeps_presence timestamp status result error old :
  (is_Some (col_result old) →
   is_Some (col_result (partial_update timestamp status result error old)))
  ∧ (is_Some (col_error old) →
     is_Some (col_error (partial_update timestamp status result error old))).
Proof.
  simpl. split; intros Hsome.
  - by destruct (is_None result).
  - by destruct error.
Qed.

Lemma _convert_row_to_task_partial_update
    key new_timestamp new_status new_result new_error old task :
  keys_unique new_result →
  _convert_row_to_task (key, old) = Ok task →
  _convert_row_to_task
    (key, partial_update new_timestamp new_status new_result new_error old)
  = Ok {| id := id task;
          action := action task;
          status := default (status task) new_status;
          timestamp := default (timestamp task) new_timestamp;
          resource_id := resource_id task;
          params := params task;
          result := if is_None new_result then result task else new_result;
          error := match new_error with
                   | Some e => Some e
                   | None => error task
                   end |}.
Proof.
  intros Hwf. unfold _convert_row_to_task. simpl.
  destruct (TaskStatus_of (col_status old)) as [st|] eqn:Hst; [|done].
  simpl.
  destruct (match col_params old with
            | Some text => json_loads text
            | None => Ok JNull
            end) as [p|]; [|done]. simpl.
  destruct (match col_result old with
            | Some text => json_loads text
            | None => Ok JNull
            end) as [r|] eqn:Hr; [|done]. simpl.
  intros [= <-]. simpl.
  assert (TaskStatus_of
            match new_status with
            | Some st' => TaskStatus_value st'
            | None => col_status old
            end = Ok (default st new_status)) as ->.
  { destruct new_status; simpl; [apply TaskStatus_of_value|done]. }
  simpl.
  destruct (is_None new_result) eqn:Hnone.
  - rewrite Hr. simpl. by destruct new_timestamp.
  - unfold json_loads. rewrite loads_dumps by done. simpl.
    by destruct new_timestamp.
Qed.

Lemma update_all_keeps_presence calls : ∀ db key old,
  db !! key = Some old →
  ∃ db' new,
    update_all db calls = Ok db'
    ∧ db' !! key = Some new
    ∧ (is_Some (col_result old) → is_Some (col_result new))
    ∧ (is_Some (col_error old) → is_Some (col_error new)).
Proof.
  induction calls as [|c calls IH]; intros db key old Hold; simpl.
  - by exists db, old.
  - rewrite update_scheduled_task_eq. simpl.
    destruct (db !! call_id c) as [target|] eqn:Htarget; simpl;
      [|by apply IH].
    destruct (decide (call_id c = key)) as [Heq|Hne].
    + subst key. rewrite Hold in Htarget. injection Htarget as <-.
      edestruct IH as (db' & new & Hrun & Hnew & Hres & Herr);
        [apply lookup_insert_eq|].
      exists db', new. split; [done|]. split; [done|].
      pose proof (partial_update_keeps_presence (call_timestamp c)
                    (call_status c) (call_result c) (call_error c) old)
        as [Hres' Herr'].
      split; intros ?; [apply Hres, Hres'|apply Herr, Herr']; done.
    + apply IH. by rewrite lookup_insert_ne.
Qed.

Lemma update_all_keeps_task calls : ∀ db key old task,
  Forall (λ c, keys_unique (call_result c)) calls →
  db !! key = Some old →
  _convert_row_to_task (key, old) = Ok task →
  ∃ db' new task',
    update_all db calls = Ok db'
    ∧ db' !! key = Some new
    ∧ _convert_row_to_task (key, new) = Ok task'
    ∧ (result task ≠ JNull → result task' ≠ JNull)
    ∧ (is_Some (error task) → is_Some (error task')).
Proof.
  induction calls as [|c calls IH]; intros db key old task Hwf Hold Htask;
    simpl.
  - by exists db, old, task.
  - apply Forall_cons in Hwf as [Hc Hwf].
    rewrite update_scheduled_task_eq. simpl.
    destruct (db !! call_id c) as [target|] eqn:Htarget; simpl;
      [|by eapply IH].
    destruct (decide (call_id c = key)) as [Heq|Hne].
    + subst key. rewrite Hold in Htarget. injection Htarget as <-.
      pose proof (_convert_row_to_task_partial_update (call_id c)
                    (call_timestamp c) (call_status c) (call_result c)
                    (call_error c) old task Hc Htask) as Hstep.
      edestruct (IH (<[call_id c := partial_update (call_timestamp c)
                             (call_status c) (call_result c)
                             (call_error c) old]> db) (call_id c))
        as (db' & new & task' & Hrun & Hnew & Hconv & Hres & Herr);
        [done|apply lookup_insert_eq|apply Hstep|].
      exists db', new, task'. simpl in *.
      split; [done|]. split; [done|]. split; [done|]. split.
      * intros Hpresent. apply Hres.
        destruct (is_None (call_result c)) eqn:Hnone; [done|].
        by destruct (call_result c).
      * intros Hpresent. apply Herr. by destruct (call_error c).
    + eapply IH; [done| |done]. by rewrite lookup_insert_ne.
Qed.

(** C9: an update whose four arguments are all None leaves the table as
    it was, and no sequence of updates clears a field: on a stored row
    whose result (or error) column is not NULL it is still not NULL
    after the sequence, and a task read with a result (or error) is
    still read with one after it. *)
Theorem update_never_clears db key old calls :
  db !! key = Some old →
  update_scheduled_task db key None None JNull None = Ok (db, true)
  ∧ ∃ db' new,
      update_all db calls = Ok db'
      ∧ db' !! key = Some new
      ∧ (is_Some (col_result old) → is_Some (col_result new))
      ∧ (is_Some (col_error old) → is_Some (col_error new))
      ∧ (Forall (λ c, keys_unique (call_result c)) calls →
         ∀ task,
           get_scheduled_task db key = Ok (Some task) →
           ∃ task',
             get_scheduled_task db' key = Ok (Some task')
             ∧ (result task ≠ JNull → result task' ≠ JNull)
             ∧ (is_Some (error task) → is_Some (error task'))).
Proof.
  intros Hold. split.
  - rewrite update_scheduled_task_eq, Hold. do 2 f_equal.
    apply insert_id. rewrite Hold. f_equal. by destruct old.
  - destruct (update_all_keeps_presence calls db key old Hold)
      as (db' & new & Hrun & Hnew & Hres & Herr).
    exists db', new. do 4 (split; [done|]).
    intros Hwf task. unfold get_scheduled_task, simple_select_one.
    rewrite Hold, Hnew. simpl.
    destruct (_convert_row_to_task (key, old)) as [task0|] eqn:Htask;
      [|done]. simpl. intros [= ->].
    destruct (update_all_keeps_task calls db key old task Hwf Hold Htask)
      as (db'' & new' & task' & Hrun' & Hnew' & Hconv & Hres' & Herr').
    rewrite Hrun in Hrun'. injection Hrun' as <-.
    rewrite Hnew in Hnew'. injection Hnew' as <-.
    exists task'. by rewrite Hconv.
Qed.

(** ** Tables written through the store can be read *)










End TaskSchedulerWorkerStore.

(** ** The text codec decodes what it encodes *)

Import JsonText.

#[local] Arguments String.append !s1 s2 : simpl nomatch.
#[local] Arguments String.concat : simpl never.

Lemma string_app_assoc (a b c : string) : (a +:+ b) +:+ c = a +:+ (b +:+ c).
Proof. induction a as [|x a IH]; simpl; congruence. Qed.

Lemma string_app_nil_r (a : string) : a +:+ EmptyString = a.
Proof. induction a as [|x a IH]; simpl; congruence. Qed.

Lemma string_app_length (a b : string) :
  String.length (a +:+ b) = (String.length a + String.length b)%nat.
Proof. induction a as [|x a IH]; simpl; congruence. Qed.

Lemma parse_string_escape_char c tail :
  parse_string (escape_char c +:+ tail)
  = '(t, rest) ← parse_string tail; Some (String c t, rest).
Proof.
  destruct c as [[] [] [] [] [] [] [] []]; reflexivity.
Qed.

Lemma parse_string_escape s rest :
  parse_string (escape s +:+ String dquote rest) = Some (s, rest).
Proof.
  induction s as [|c s IH]; [done|].
  simpl. rewrite string_app_assoc, parse_string_escape_char, IH. done.
Qed.

Lemma parse_uint_string_of_uint d rest :
  no_digit rest →
  parse_uint (NilEmpty.string_of_uint d +:+ rest) = (d, rest).
Proof.
  intros Hrest. induction d; simpl; rewrite ?IHd; try done.
  destruct rest as [|c rest]; simpl in *; [done|]. by rewrite Hrest.
Qed.

Lemma to_int_normal z :
  match Z.to_int z with
  | Decimal.Pos d | Decimal.Neg d => d ≠ Decimal.Nil ∧ Decimal.unorm d = d
  end.
Proof.
  pose proof (DecimalZ.to_of (Z.to_int z)) as Hnorm.
  rewrite DecimalZ.of_to in Hnorm.
  destruct (Z.to_int z) as [d|d]; simpl in Hnorm.
  - injection Hnorm as Hd. split; [|done].
    intros ->. discriminate.
  - destruct (Decimal.nzhead d) eqn:Hnz; try discriminate;
      injection Hnorm as Hd; subst d; (split; [done|]);
      unfold Decimal.unorm; by rewrite Hnz.
Qed.

Lemma string_of_uint_head d :
  d ≠ Decimal.Nil →
  ∃ c s, NilEmpty.string_of_uint d = String c s
         ∧ (c =? "-")%char = false
         ∧ is_ws c = false
         ∧ is_Some (digit_of c).
Proof. destruct d; try done; intros _; eexists _, _; by repeat split. Qed.

Lemma parse_number_print z rest :
  no_digit rest →
  parse_number (NilEmpty.string_of_int (Z.to_int z) +:+ rest)
  = Some (JInt z, rest).
Proof.
  intros Hrest. pose proof (to_int_normal z) as Hn.
  pose proof (DecimalZ.of_to z) as Hz.
  destruct (Z.to_int z) as [d|d]; destruct Hn as [Hnil Hnorm]; simpl.
  - destruct (string_of_uint_head d Hnil) as (c & s & Hs & Hc & _).
    unfold parse_number. rewrite Hs. simpl. rewrite Hc.
    change (String c (s +:+ rest)) with (String c s +:+ rest).
    rewrite <-Hs, parse_uint_string_of_uint by done.
    rewrite Hnorm.
    assert (Decimal.uint_beq d d = true) as ->
      by by apply Decimal.internal_uint_dec_lb.
    rewrite Hz. by destruct d.
  - unfold parse_number. simpl.
    rewrite parse_uint_string_of_uint by done.
    rewrite Hnorm.
    assert (Decimal.uint_beq d d = true) as ->
      by by apply Decimal.internal_uint_dec_lb.
    simpl in Hz. rewrite Hz. by destruct d.
Qed.

Lemma print_head v : ∃ c s, print v = String c s ∧ value_start c = true.
Proof.
  destruct v as [|[]|z|s|l|m]; try (eexists _, _; by split).
  simpl. pose proof (to_int_normal z) as Hn.
  destruct (Z.to_int z) as [d|d]; destruct Hn as [Hnil _]; simpl.
  - destruct (string_of_uint_head d Hnil) as (c & s & -> & _ & _ & Hd).
    exists c, s. split; [done|]. unfold value_start.
    rewrite (bool_decide_eq_true_2 _ Hd). by rewrite !orb_true_r.
  - by eexists _, _.
Qed.

Lemma skip_ws_value_start c s :
  value_start c = true → skip_ws (String c s) = String c s.
Proof. destruct c as [[] [] [] [] [] [] [] []]; done. Qed.

Lemma value_start_not_close c s (close : string) :
  value_start c = true → close = "]" ∨ close = "}" →
  strip_prefix close (String c s) = None.
Proof.
  intros Hc [-> | ->]; destruct c as [[] [] [] [] [] [] [] []]; done.
Qed.

Lemma parse_value_space fuel s :
  parse_value fuel (String " " s) = parse_value fuel s.
Proof. by destruct fuel. Qed.

Lemma parse_value_number fuel c s :
  bool_decide (is_Some (digit_of c)) || (c =? "-")%char = true →
  parse_value (S fuel) (String c s) = parse_number (String c s).
Proof. destruct c as [[] [] [] [] [] [] [] []]; done. Qed.

Lemma json_ind' (P : json → Prop) :
  P JNull → (∀ b, P (JBool b)) → (∀ z, P (JInt z)) → (∀ s, P (JStr s)) →
  (∀ items, Forall P items → P (JArr items)) →
  (∀ members, Forall (λ kv, P kv.2) members → P (JObj members)) →
  ∀ v, P v.
Proof.
  intros Hnull Hbool Hint Hstr Harr Hobj.
  exact (fix go (v : json) : P v :=
    match v with
    | JNull => Hnull
    | JBool b => Hbool b
    | JInt z => Hint z
    | JStr s => Hstr s
    | JArr items =>
        Harr items
          ((fix all (l : list json) : Forall P l :=
              match l with
              | [] => Forall_nil_2 P
              | x :: l => Forall_cons_2 P x l (go x) (all l)
              end) items)
    | JObj members =>
        Hobj members
          ((fix all (l : list (string * json)) : Forall (λ kv, P kv.2) l :=
              match l with
              | [] => Forall_nil_2 _
              | kv :: l => Forall_cons_2 _ kv l (go kv.2) (all l)
              end) members)
    end).
Qed.

Lemma keys_unique_JArr items :
  keys_unique (JArr items) ↔ Forall keys_unique items.
Proof.
  induction items as [|x l IH]; simpl in *.
  - split; [constructor|done].
  - rewrite Forall_cons. by rewrite <-IH.
Qed.

Lemma keys_unique_JObj members :
  keys_unique (JObj members)
  ↔ NoDup members.*1 ∧ Forall (λ kv, keys_unique kv.2) members.
Proof.
  simpl. apply and_iff_compat_l.
  induction members as [|x l IH]; simpl in *.
  - split; [constructor|done].
  - rewrite Forall_cons. by rewrite <-IH.
Qed.

Lemma parse_elements_space pv n s :
  (∀ s, pv (String " " s) = pv s) →
  parse_elements pv n (String " " s) = parse_elements pv n s.
Proof. intros Hpv. destruct n; simpl; [done|]. by rewrite Hpv. Qed.

Lemma parse_members_space pv n s :
  parse_members pv n (String " " s) = parse_members pv n s.
Proof. by destruct n. Qed.

Lemma parse_elements_print pv :
  (∀ s, pv (String " " s) = pv s) →
  ∀ l x n rest,
    (length l < n)%nat →
    Forall (λ y, ∀ r, no_digit r → pv (print y +:+ r) = Some (y, r)) (x :: l) →
    parse_elements pv n
      (String.concat ", " (map print (x :: l)) +:+ "]" +:+ rest)
    = Some (x :: l, rest).
Proof.
  intros Hpv. induction l as [|y l IH]; intros x n rest Hn Hall;
    (destruct n as [|n]; [simpl in Hn; lia|]);
    apply Forall_cons in Hall as [Hx Hall].
  - change (String.concat ", " (map print [x])) with (print x).
    simpl. rewrite Hx by done. reflexivity.
  - change (String.concat ", " (map print (x :: y :: l)))
      with (print x +:+ ", " +:+ String.concat ", " (map print (y :: l))).
    rewrite !string_app_assoc. simpl parse_elements.
    rewrite Hx by done. simpl.
    rewrite parse_elements_space by done.
    assert (length l < n)%nat as Hn' by (simpl in Hn; lia).
    pose proof (IH y n rest Hn' Hall) as HIH. simpl in HIH. by rewrite HIH.
Qed.

Lemma parse_members_print pv :
  (∀ s, pv (String " " s) = pv s) →
  ∀ l kv n rest,
    (length l < n)%nat →
    Forall (λ kv, ∀ r, no_digit r → pv (print kv.2 +:+ r) = Some (kv.2, r))
      (kv :: l) →
    parse_members pv n
      (String.concat ", " (map print_member (kv :: l)) +:+ "}" +:+ rest)
    = Some (kv :: l, rest).
Proof.
  intros Hpv. induction l as [|kv' l IH]; intros [k v] n rest Hn Hall;
    (destruct n as [|n]; [simpl in Hn; lia|]);
    apply Forall_cons in Hall as [Hv Hall]; simpl in Hv.
  - change (String.concat ", " (map print_member [(k, v)]))
      with (print_member (k, v)).
    unfold print_member, print_string. simpl fst; simpl snd.
    simpl. rewrite !string_app_assoc. simpl.
    rewrite parse_string_escape. simpl. rewrite Hpv, Hv by done. reflexivity.
  - change (String.concat ", " (map print_member ((k, v) :: kv' :: l)))
      with (print_member (k, v) +:+ ", "
            +:+ String.concat ", " (map print_member (kv' :: l))).
    unfold print_member at 1. unfold print_string. simpl fst; simpl snd.
    simpl. rewrite !string_app_assoc. simpl.
    rewrite parse_string_escape. simpl. rewrite Hpv, Hv by done. simpl.
    rewrite parse_members_space.
    assert (length l < n)%nat as Hn' by (simpl in Hn; lia).
    pose proof (IH kv' n rest Hn' Hall) as HIH. simpl in HIH. by rewrite HIH.
Qed.

Lemma dict_set_fresh k v d : k ∉ d.*1 → dict_set k v d = d ++ [(k, v)].
Proof.
  induction d as [|[k' v'] d IH]; simpl; [done|].
  intros Hk. apply not_elem_of_cons in Hk as [Hne Hk].
  rewrite decide_False by done. by rewrite IH.
Qed.

Lemma dict_of_pairs_NoDup members :
  NoDup members.*1 → dict_of_pairs members = members.
Proof.
  unfold dict_of_pairs.
  enough (∀ acc, NoDup (acc ++ members).*1 →
            foldl (λ d kv, dict_set kv.1 kv.2 d) acc members = acc ++ members)
    as Hgen by (intros Hnd; by apply (Hgen [])).
  induction members as [|[k v] l IH]; intros acc Hnd; simpl.
  - by rewrite List.app_nil_r.
  - rewrite dict_set_fresh.
    + rewrite IH; rewrite <-List.app_assoc; done.
    + rewrite fmap_app in Hnd. apply NoDup_app in Hnd as (_ & Hdis & _).
      intros Hin. apply (Hdis k Hin). simpl. apply elem_of_cons. by left.
Qed.

Lemma json_size_pos v : (1 ≤ json_size v)%nat.
Proof. destruct v; simpl; lia. Qed.

Lemma sum_list_size_length {A} (f : A → nat) (l : list A) :
  (∀ x, 1 ≤ f x)%nat → (length l ≤ sum_list (map f l))%nat.
Proof.
  intros Hf. induction l as [|x l IH]; simpl; [done|].
  specialize (Hf x). lia.
Qed.

Lemma sum_list_size_elem {A} (f : A → nat) (l : list A) (x : A) :
  x ∈ l → (f x ≤ sum_list (map f l))%nat.
Proof.
  induction l as [|y l IH]; [by inversion 1|].
  intros [->|Hin]%elem_of_cons; simpl; [lia|].
  specialize (IH Hin). lia.
Qed.

Lemma concat_head {A} (f : A → string) (x : A) (l : list A) :
  (∃ c s, f x = String c s ∧ value_start c = true) →
  ∃ c s, String.concat ", " (map f (x :: l)) = String c s
         ∧ value_start c = true.
Proof.
  intros (c & s & Hs & Hc). destruct l as [|y l].
  - by exists c, s.
  - change (String.concat ", " (map f (x :: y :: l)))
      with (f x +:+ ", " +:+ String.concat ", " (map f (y :: l))).
    rewrite Hs. simpl. by eexists _, _.
Qed.

Lemma parse_value_array fuel s1 :
  strip_prefix "]" (skip_ws s1) = None →
  parse_value (S fuel) (String "[" s1)
  = '(vs, rest) ← parse_elements (parse_value fuel) fuel s1;
    Some (JArr vs, rest).
Proof. intros Hopen. cbn -[strip_prefix]. by rewrite Hopen. Qed.

Lemma parse_value_object fuel s1 :
  strip_prefix "}" (skip_ws s1) = None →
  parse_value (S fuel) (String "{" s1)
  = '(kvs, rest) ← parse_members (parse_value fuel) fuel s1;
    Some (JObj (dict_of_pairs kvs), rest).
Proof. intros Hopen. cbn -[strip_prefix]. by rewrite Hopen. Qed.

Lemma string_of_int_head z :
  ∃ c s, NilEmpty.string_of_int (Z.to_int z) = String c s
         ∧ bool_decide (is_Some (digit_of c)) || (c =? "-")%char = true.
Proof.
  pose proof (to_int_normal z) as Hn.
  destruct (Z.to_int z) as [d|d]; destruct Hn as [Hnil _]; simpl.
  - destruct (string_of_uint_head d Hnil) as (c & s & -> & _ & _ & Hd).
    exists c, s. split; [done|]. by rewrite (bool_decide_eq_true_2 _ Hd).
  - by eexists _, _.
Qed.

Lemma parse_value_print v :
  keys_unique v →
  ∀ fuel rest,
    (json_size v ≤ fuel)%nat → no_digit rest →
    parse_value fuel (print v +:+ rest) = Some (v, rest).
Proof.
  induction v as [|b|z|s|items IH|members IH] using json_ind';
    intros Hwf fuel rest Hfuel Hrest;
    (destruct fuel as [|fuel]; [simpl in Hfuel; lia|]).
  - reflexivity.
  - by destruct b.
  - simpl print. destruct (string_of_int_head z) as (c & s & Hs & Hc).
    rewrite Hs. simpl String.append. rewrite parse_value_number by done.
    change (String c (s +:+ rest)) with (String c s +:+ rest).
    rewrite <-Hs. by apply parse_number_print.
  - simpl print. unfold print_string. simpl. rewrite string_app_assoc. simpl.
    by rewrite parse_string_escape.
  - destruct items as [|x l]; [reflexivity|].
    apply keys_unique_JArr in Hwf.
    simpl print. simpl String.append. rewrite !string_app_assoc.
    simpl String.append.
    destruct (concat_head print x l (print_head x)) as (c & s & Hs & Hc).
    simpl in Hs.
    rewrite parse_value_array.
    2:{ rewrite Hs. simpl String.append. rewrite skip_ws_value_start by done.
        apply value_start_not_close; auto. }
    simpl in Hfuel.
    pose proof (sum_list_size_length json_size l json_size_pos).
    pose proof (json_size_pos x).
    change (String.concat ", " (print x :: map print l) +:+ String "]" rest)
      with (String.concat ", " (map print (x :: l)) +:+ "]" +:+ rest).
    rewrite parse_elements_print; [done|apply parse_value_space|lia|].
    apply Forall_forall. intros y Hy r Hr.
    rewrite Forall_forall in IH. apply IH; [done| |  |done].
    + rewrite Forall_forall in Hwf. by apply Hwf.
    + pose proof (sum_list_size_elem json_size (x :: l) y Hy). simpl in *. lia.
  - destruct members as [|kv l]; [reflexivity|].
    apply keys_unique_JObj in Hwf as [Hnd Hwf].
    change (print (JObj (kv :: l)))
      with ("{" +:+ String.concat ", " (map print_member (kv :: l)) +:+ "}").
    simpl String.append. rewrite !string_app_assoc. simpl String.append.
    destruct (concat_head print_member kv l) as (c & s & Hs & Hc).
    { unfold print_member, print_string. simpl. by eexists _, _. }
    change (map print_member (kv :: l))
      with (print_member kv :: map print_member l) in Hs.
    rewrite parse_value_object.
    2:{ rewrite Hs. simpl String.append. rewrite skip_ws_value_start by done.
        apply value_start_not_close; auto. }
    simpl in Hfuel.
    pose proof (sum_list_size_length (λ kv, json_size kv.2) l
                  (λ kv, json_size_pos kv.2)).
    pose proof (json_size_pos kv.2).
    change (String.concat ", " (print_member kv :: map print_member l)
            +:+ String "}" rest)
      with (String.concat ", " (map print_member (kv :: l)) +:+ "}" +:+ rest).
    rewrite parse_members_print; [|apply parse_value_space|lia|].
    + simpl. by rewrite dict_of_pairs_NoDup.
    + apply Forall_forall. intros y Hy r Hr.
      rewrite Forall_forall in IH. apply IH; [done| |  |done].
      * rewrite Forall_forall in Hwf. by apply Hwf.
      * pose proof (sum_list_size_elem (λ kv, json_size kv.2) (kv :: l) y Hy).
        simpl in *. lia.
Qed.

Lemma length_concat sep (ls : list string) :
  (sum_list (map String.length ls) ≤ String.length (String.concat sep ls))%nat.
Proof.
  induction ls as [|a ls IH]; [done|].
  destruct ls as [|b ls].
  - simpl. change (String.concat sep [a]) with a. lia.
  - change (String.concat sep (a :: b :: ls))
      with (a +:+ sep +:+ String.concat sep (b :: ls)).
    rewrite !string_app_length. simpl in *. lia.
Qed.

Lemma sum_list_le {A} (f g : A → nat) (l : list A) :
  Forall (λ x, f x ≤ g x)%nat l →
  (sum_list (map f l) ≤ sum_list (map g l))%nat.
Proof. induction 1; simpl; lia. Qed.

Lemma json_size_print v : (json_size v ≤ String.length (print v))%nat.
Proof.
  induction v as [|b|z|s|items IH|members IH] using json_ind'.
  - simpl. lia.
  - destruct b; simpl; lia.
  - simpl. destruct (string_of_int_head z) as (c & s & -> & _). simpl. lia.
  - simpl. lia.
  - simpl print. simpl json_size. simpl String.length.
    rewrite string_app_length.
    pose proof (length_concat ", " (map print items)) as Hlen.
    rewrite map_map in Hlen.
    pose proof (sum_list_le json_size (λ x, String.length (print x)) items IH).
    simpl. lia.
  - change (print (JObj members))
      with ("{" +:+ String.concat ", " (map print_member members) +:+ "}").
    simpl json_size. simpl String.length. rewrite string_app_length.
    pose proof (length_concat ", " (map print_member members)) as Hlen.
    rewrite map_map in Hlen.
    assert (sum_list (map (λ kv, json_size kv.2) members)
            ≤ sum_list (map (λ x, String.length (print_member x)) members))%nat.
    { apply sum_list_le. eapply Forall_impl; [done|].
      intros kv Hkv. unfold print_member. rewrite !string_app_length.
      simpl in *. lia. }
    simpl. lia.
Qed.

(** Every value whose dicts have distinct keys is decoded from its
    encoding. *)
Theorem text_codec_round_trip v : keys_unique v → loads (dumps v) = Some v.
Proof.
  intros Hwf. unfold loads, dumps.
  rewrite <-(string_app_nil_r (print v)) at 2.
  rewrite parse_value_print; [done|done| |done].
  pose proof (json_size_print v). lia.
Qed.

(** ** The operations on the example tables *)

(** The spec's example, run: upsert, get, two updates, each followed by a
    get. *)
Example spec_example :
  ∃ db1 db2 db3,
    upsert_scheduled_task dumps ∅ purge_task = Ok db1
    ∧ get_scheduled_task loads db1 "t1" = Ok (Some purge_task)
    ∧ update_scheduled_task dumps db1 "t1" (Some 1005) (Some ACTIVE) JNull None
      = Ok (db2, true)
    ∧ get_scheduled_task loads db2 "t1"
      = Ok (Some {| id := "t1"; action := "purge_history"; status := ACTIVE;
                    timestamp := 1005; resource_id := Some "room1";
                    params := JObj [("before", JInt 500)];
                    result := JNull; error := None |})
    ∧ update_scheduled_task dumps db2 "t1" None (Some COMPLETE)
        (JObj [("rows_deleted", JInt 42)]) None
      = Ok (db3, true)
    ∧ get_scheduled_task loads db3 "t1"
      = Ok (Some {| id := "t1"; action := "purge_history";
                    status := COMPLETE; timestamp := 1005;
                    resource_id := Some "room1";
                    params := JObj [("before", JInt 500)];
                    result := JObj [("rows_deleted", JInt 42)];
                    error := None |}).
Proof.
  eexists _, _, _. repeat split; vm_compute; reflexivity.
Qed.

(** The three states of the resource id filter on a table of two rows. *)
Example list_resource_ids :
  get_scheduled_tasks_txn ended_table None (Some []) None
  = Ok [("t2", unscoped_row)]
  ∧ get_scheduled_tasks_txn ended_table None (Some ["room1"]) None
    = Ok [("t1", ended_row)]
  ∧ (∃ rows, get_scheduled_tasks_txn ended_table None None None = Ok rows
             ∧ length rows = 2%nat)
  ∧ get_scheduled_tasks_txn ended_table (Some ["send_mail"]) (Some [])
      (Some [ACTIVE; FAILED])
    = Ok [("t2", unscoped_row)]
  ∧ get_scheduled_tasks_txn ended_table (Some []) None None = Ok [].
Proof.
  repeat split; try (vm_compute; reflexivity).
  eexists. split; vm_compute; reflexivity.
Qed.

(** An update that names no stored task, and a delete. *)
Example update_without_target :
  update_scheduled_task dumps purge_table "t9" None (Some COMPLETE)
    (JObj [("x", JInt 1)]) None
  = Ok (purge_table, false)
  ∧ delete_scheduled_task purge_table "t1" = Ok ∅
  ∧ delete_scheduled_task purge_table "t9" = Ok purge_table.
Proof. repeat split; vm_compute; reflexivity. Qed.

(** The round trip of C2 on the spec's example task and the empty table. *)
Lemma upsert_then_get_round_trips_witness :
  ∃ db',
    upsert_scheduled_task dumps ∅ purge_task = Ok db'
    ∧ get_scheduled_task loads db' "t1" = Ok (Some purge_task).
Proof.
  apply (upsert_then_get_round_trips dumps loads text_codec_round_trip
           ∅ purge_task); keys_unique_here.
Defined.

(** The update of C3 on the spec's example: status and result supplied, timestamp and
    error omitted. *)
Lemma update_modifies_only_supplied_fields_witness :
  ∃ new,
    update_scheduled_task dumps purge_table "t1" None (Some COMPLETE)
      (JObj [("x", JInt 1)]) None
    = Ok (<["t1" := new]> purge_table, true)
    ∧ col_timestamp new = 1000
    ∧ col_status new = "complete"
    ∧ col_result new = Some (dumps (JObj [("x", JInt 1)]))
    ∧ col_error new = None
    ∧ col_action new = "purge_history"
    ∧ col_resource_id new = Some "room1"
    ∧ col_params new = col_params purge_row.
Proof.
  apply (update_modifies_only_supplied_fields dumps purge_table "t1" None
           (Some COMPLETE) (JObj [("x", JInt 1)]) None purge_row).
  reflexivity.
Defined.

(** The failing read of C8 on a table with a row whose result is not JSON. *)
Lemma malformed_json_fails_the_read_witness :
  (∃ e,
     _convert_row_to_task loads ("t3", corrupt_row) = Raise e
     ∧ get_scheduled_task loads corrupt_table "t3" = Raise e
     ∧ e = JSONDecodeError)
  ∧ (∀ actions resource_ids statuses rows,
       get_scheduled_tasks_txn corrupt_table actions resource_ids statuses
       = Ok rows →
       ("t3", corrupt_row) ∈ rows →
       raises (get_scheduled_tasks loads corrupt_table actions resource_ids
                 statuses) = true).
Proof.
  apply (malformed_json_fails_the_read loads corrupt_table "t3" corrupt_row
           (String "{" EmptyString)).
  - reflexivity.
  - right. reflexivity.
  - vm_compute. reflexivity.
Defined.

(** The sequence of C9 on a table whose task has a result and an error, and three
    updates. *)
Lemma update_never_clears_witness :
  update_scheduled_task dumps ended_table "t1" None None JNull None
  = Ok (ended_table, true)
  ∧ ∃ db' new,
      update_all dumps ended_table example_calls = Ok db'
      ∧ db' !! "t1" = Some new
      ∧ (is_Some (col_result ended_row) → is_Some (col_result new))
      ∧ (is_Some (col_error ended_row) → is_Some (col_error new))
      ∧ (Forall (λ c, keys_unique (call_result c)) example_calls →
         ∀ task,
           get_scheduled_task loads ended_table "t1" = Ok (Some task) →
           ∃ task',
             get_scheduled_task loads db' "t1" = Ok (Some task')
             ∧ (result task ≠ JNull → result task' ≠ JNull)
             ∧ (is_Some (error task) → is_Some (error task'))).
Proof.
  apply (update_never_clears dumps loads text_codec_round_trip ended_table
           "t1" ended_row example_calls).
  reflexivity.
Defined.

(** ** The further properties on the example tables *)

(** Two upserts under the id [t1]. *)
Lemma upsert_last_write_wins_witness :
  upsert_scheduled_task dumps purge_table
    {| id := "t1"; action := "other"; status := FAILED; timestamp := 3;
       resource_id := None; params := JNull; result := JNull;
       error := Some "first" |}
    ≫= (λ db1, upsert_scheduled_task dumps db1 purge_task)
  = upsert_scheduled_task dumps purge_table purge_task.
Proof.
  apply (upsert_last_write_wins dumps purge_table
           {| id := "t1"; action := "other"; status := FAILED;
              timestamp := 3; resource_id := None; params := JNull;
              result := JNull; error := Some "first" |} purge_task).
  reflexivity.
Defined.

(** A new timestamp and a new status for [t1], in either order. *)
Lemma updates_of_disjoint_fields_commute_witness :
  update_all dumps ended_table
    [ {| call_id := "t1"; call_timestamp := Some 5; call_status := None;
         call_result := JNull; call_error := None |};
      {| call_id := "t1"; call_timestamp := None;
         call_status := Some COMPLETE; call_result := JInt 1;
         call_error := None |} ]
  = update_all dumps ended_table
      [ {| call_id := "t1"; call_timestamp := None;
           call_status := Some COMPLETE; call_result := JInt 1;
           call_error := None |};
        {| call_id := "t1"; call_timestamp := Some 5; call_status := None;
           call_result := JNull; call_error := None |} ].
Proof.
  apply (updates_of_disjoint_fields_commute dumps ended_table
           {| call_id := "t1"; call_timestamp := Some 5;
              call_status := None; call_result := JNull;
              call_error := None |}
           {| call_id := "t1"; call_timestamp := None;
              call_status := Some COMPLETE; call_result := JInt 1;
              call_error := None |}).
  right. repeat split; simpl; auto.
Defined.

(** Writes under [t1] seen from [t2]. *)
Lemma other_tasks_are_untouched_witness :
  (∀ task db',
     id task = "t1" → upsert_scheduled_task dumps ended_table task = Ok db' →
     get_scheduled_task loads db' "t2"
     = get_scheduled_task loads ended_table "t2")
  ∧ (∀ timestamp status result error db' found,
       update_scheduled_task dumps ended_table "t1" timestamp status result
         error
       = Ok (db', found) →
       get_scheduled_task loads db' "t2"
       = get_scheduled_task loads ended_table "t2")
  ∧ (∀ db',
       delete_scheduled_task ended_table "t1" = Ok db' →
       get_scheduled_task loads db' "t2"
       = get_scheduled_task loads ended_table "t2").
Proof.
  apply (other_tasks_are_untouched dumps loads ended_table "t1" "t2").
  discriminate.
Defined.

(** The list of [ended_table] without filters. *)
Lemma listed_tasks_are_what_get_returns_witness :
  NoDup (id <$> ended_tasks)
  ∧ ∀ task, task ∈ ended_tasks →
      get_scheduled_task loads ended_table (id task) = Ok (Some task).
Proof.
  apply (listed_tasks_are_what_get_returns loads ended_table None None None
           ended_tasks).
  vm_compute. reflexivity.
Defined.

(** The list of [corrupt_table] that selects the row of [t3]. *)
Lemma list_raises_only_for_a_selected_row_witness :
  ∃ key cols,
    corrupt_table !! key = Some cols
    ∧ selected None (Some []) None (key, cols)
    ∧ _convert_row_to_task loads (key, cols) = Raise JSONDecodeError
    ∧ (JSONDecodeError = ValueError ∨ JSONDecodeError = JSONDecodeError).
Proof.
  apply (list_raises_only_for_a_selected_row loads corrupt_table None
           (Some []) None JSONDecodeError).
  vm_compute. reflexivity.
Defined.

(** The same statuses and resource ids, reordered and repeated. *)
Lemma filters_are_sets_witness :
  get_scheduled_tasks_txn ended_table None (Some ["room1"; "room2"])
    (Some [FAILED; ACTIVE])
  = get_scheduled_tasks_txn ended_table None
      (Some ["room2"; "room1"; "room2"]) (Some [ACTIVE; FAILED; ACTIVE]).
Proof.
  apply (filters_are_sets loads ended_table None None
           (Some ["room1"; "room2"]) (Some ["room2"; "room1"; "room2"])
           (Some [FAILED; ACTIVE]) (Some [ACTIVE; FAILED; ACTIVE]));
    simpl; [done| |]; intros x;
    rewrite !elem_of_cons, !elem_of_nil; tauto.
Defined.



